(** * basic-config-store: a shallow embedding of [src/BasicConfigStore.js]

    The store keeps a tree of plain JavaScript objects below a private root
    [_data], a private table [_observerList] from path strings to arrays of
    handlers, and it stashes, on every observer object, a map from path
    strings to array positions under the member ['bc' + _id].

    Objects live in a heap and are handed around by reference, handlers are
    functions that may call back into the store, and the module runs in
    strict mode, so an assignment to a member of a primitive throws. *)

From Stdlib Require Import Ascii String HexString ZArith Lia.
From stdpp Require Import base option list gmap strings.

Open Scope Z_scope.
Open Scope string_scope.
Open Scope list_scope.
Open Scope nat_scope.

(** ** JavaScript values *)

Definition loc := positive.

(** A function value is known by its identity; what it does when called is
    given by the table [code] of the section below. *)
Definition fid := nat.

Inductive value : Type :=
| VUndef
| VNull
| VBool (b : bool)
| VNum (n : Z)
| VNaN
| VStr (s : string)
| VRef (l : loc)
| VFun (f : fid).

#[global] Instance value_eq_dec : EqDecision value.
Proof. solve_decision. Defined.

(** ToBoolean, as used by [||] and [if]. *)
Definition truthy (v : value) : bool :=
  match v with
  | VUndef | VNull | VNaN => false
  | VBool b => b
  | VNum n => negb (n =? 0)%Z
  | VStr s => negb (String.eqb s "")
  | VRef _ | VFun _ => true
  end.

(** The global [isNaN]: ToNumber of the argument is NaN.  A plain object and
    a function convert to NaN; a string converts by the numeric-literal
    grammar, which the model decides only for the empty string. *)
Definition isNaN (v : value) : option bool :=
  match v with
  | VUndef | VNaN | VRef _ | VFun _ => Some true
  | VNull | VBool _ | VNum _ => Some false
  | VStr s => if String.eqb s "" then Some false else None
  end.

(** Names for which a built-in prototype supplies a member: those of
    [Object.prototype], [Number.prototype] and [Boolean.prototype].  An access
    that one of these members would decide is outside the model. *)
Definition builtin_names : list string :=
  [ "constructor"; "__proto__"; "hasOwnProperty"; "isPrototypeOf";
    "propertyIsEnumerable"; "toLocaleString"; "toString"; "valueOf";
    "__defineGetter__"; "__defineSetter__"; "__lookupGetter__";
    "__lookupSetter__"; "toExponential"; "toFixed"; "toPrecision" ].

Definition builtin (name : string) : bool :=
  existsb (String.eqb name) builtin_names.

(** ** Paths *)

(** [path.match(/\./)]: does the string contain the separator? *)
Fixpoint has_separator (path : string) : bool :=
  match path with
  | EmptyString => false
  | String c rest => if Ascii.eqb c "."%char then true else has_separator rest
  end.

(** [path.split('.')] *)
Fixpoint split (path : string) : list string :=
  match path with
  | EmptyString => [EmptyString]
  | String c rest =>
      if Ascii.eqb c "."%char then EmptyString :: split rest
      else match split rest with
           | [] => [String c EmptyString]
           | seg :: segs => String c seg :: segs
           end
  end.

(** ** The heap, the stores and the machine state *)

(** A plain object is the finite map of its own members. *)
Abbreviation object := (gmap string value).

(** One [BasicConfigStore]: the closure variables of the constructor. *)
Record store : Type := Store {
  _data : loc;
  _observerList : gmap string (list value);
  _id : string
}.

(** One call of a handler: [handler.call(null, {property, value})], issued by
    a [notify] that runs [depth] handler calls deep. *)
Record call : Type := Call {
  at_depth : nat;
  callee : fid;
  data_property : string;
  data_value : value
}.

#[global] Instance call_eq_dec : EqDecision call.
Proof. solve_decision. Defined.

Record world : Type := World {
  heap : gmap loc object;
  stores : gmap nat store;
  calls : list call
}.

Definition with_heap (h : gmap loc object) (w : world) : world :=
  World h (stores w) (calls w).

Definition with_stores (ss : gmap nat store) (w : world) : world :=
  World (heap w) ss (calls w).

Definition with_calls (cs : list call) (w : world) : world :=
  World (heap w) (stores w) cs.

(** ** Outcomes and the state monad of the embedding *)

Inductive result (A : Type) : Type :=
| Ok (a : A) (w : world)      (* normal completion *)
| TypeError (w : world)       (* a TypeError reaches the caller; [w] is the state left behind *)
| OutOfFuel                   (* handler calls nest deeper than the fuel given *)
| Beyond.                     (* the run leaves the modelled fragment of JavaScript *)

Arguments Ok {A} a w.
Arguments TypeError {A} w.
Arguments OutOfFuel {A}.
Arguments Beyond {A}.

Definition M (A : Type) : Type := world -> result A.

Definition ret {A} (a : A) : M A := fun w => Ok a w.

Definition bind {A B} (m : M A) (k : A -> M B) : M B :=
  fun w =>
    match m w with
    | Ok a w' => k a w'
    | TypeError w' => TypeError w'
    | OutOfFuel => OutOfFuel
    | Beyond => Beyond
    end.

Notation "x <- m ;; k" := (bind m (fun x => k))
  (at level 100, m at next level, right associativity).
Notation "m ;;; k" := (bind m (fun _ => k))
  (at level 100, right associativity).

Definition throw_TypeError {A} : M A := fun w => TypeError w.
Definition beyond {A} : M A := fun _ => Beyond.

(** ** Member access *)

(** [obj[name]] as an rvalue. *)
Definition member (name : string) (obj : value) : M value :=
  fun w =>
    match obj with
    | VUndef | VNull => TypeError w
    | VRef l =>
        match heap w !! l with
        | Some o =>
            match o !! name with
            | Some v => Ok v w
            | None => if builtin name then Beyond else Ok VUndef w
            end
        | None => Beyond
        end
    | VBool _ | VNum _ | VNaN => if builtin name then Beyond else Ok VUndef w
    | VStr _ | VFun _ => Beyond
    end.

(** [obj[name] = v] in strict mode. *)
Definition assign (name : string) (obj v : value) : M unit :=
  fun w =>
    if builtin name then Beyond
    else
      match obj with
      | VRef l =>
          match heap w !! l with
          | Some o => Ok tt (with_heap (<[l := <[name := v]> o]> (heap w)) w)
          | None => Beyond
          end
      | VFun _ => Beyond
      | _ => TypeError w
      end.

(** The object literal [{}]. *)
Definition new_object : M value :=
  fun w =>
    let l := fresh (dom (heap w)) in
    Ok (VRef l) (with_heap (<[l := ∅]> (heap w)) w).

(** ** The private helpers of [BasicConfigStore] *)

Section Store.

(** The store the closure belongs to, by its handle in [stores]. *)
Variable this : nat.

Definition get_store : M store :=
  fun w => match stores w !! this with
           | Some s => Ok s w
           | None => Beyond
           end.

Definition put_observerList (ol : gmap string (list value)) : M unit :=
  fun w =>
    match stores w !! this with
    | Some s => Ok tt (with_stores (<[this := Store (_data s) ol (_id s)]> (stores w)) w)
    | None => Beyond
    end.

(** function getPropertyName(path) *)
Definition getPropertyName (path : string) : string :=
  if has_separator path then
    let _path := split path in
    let lastIndex := length _path - 1 in
    default path (_path !! lastIndex)
  else path.

(** [_obj = _obj[name] || (_obj[name] = {})] *)
Definition descend (name : string) (_obj : value) : M value :=
  v <- member name _obj ;;
  if truthy v then ret v
  else (o <- new_object ;; assign name _obj o ;;; ret o).

(** [_path.every(function (name, index) { ...; return (index + 1) < lastIndex; })],
    from position [index] on, threading the captured variable [_obj]. *)
Fixpoint every (lastIndex : nat) (_path : list string) (index : nat)
    (_obj : value) : M value :=
  match _path with
  | [] => ret _obj
  | name :: rest =>
      _obj' <- descend name _obj ;;
      if (index + 1 <? lastIndex) then every lastIndex rest (S index) _obj'
      else ret _obj'
  end.

(** function getParentObject(path) *)
Definition getParentObject (path : string) : M value :=
  s <- get_store ;;
  let _obj := VRef (_data s) in
  if has_separator path then
    let _path := split path in
    let lastIndex := length _path - 1 in
    every lastIndex _path 0 _obj
  else ret _obj.

End Store.

Section Store.

Variable this : nat.

(** [_observerList[key]], an own array or nothing. *)
Definition observerList_member (key : string) : M (option (list value)) :=
  s <- get_store this ;;
  match _observerList s !! key with
  | Some _list => ret (Some _list)
  | None => if builtin key then beyond else ret None
  end.

(** [_observerList[key] = _list]; also the write-back of an array method
    that changes the array in place. *)
Definition set_observerList (key : string) (_list : list value) : M unit :=
  s <- get_store this ;;
  put_observerList this (<[key := _list]> (_observerList s)).

(** function getObserverList(key) *)
Definition getObserverList (key : string) : M (list value) :=
  found <- observerList_member key ;;
  match found with
  | Some _list => ret _list
  | None => set_observerList key [] ;;; ret []
  end.

(** function getObserverIndex(observer, property); the temporary [{}] of
    [observer['bc' + _id] || {}] is read once and dropped. *)
Definition getObserverIndex (observer : value) (property : string) : M value :=
  s <- get_store this ;;
  _basicConfig <- member ("bc" +:+ _id s) observer ;;
  if truthy _basicConfig then member property _basicConfig
  else if builtin property then beyond else ret VUndef.

(** function setObserverIndex(observer, property, index) *)
Definition setObserverIndex (observer : value) (property : string)
    (index : value) : M unit :=
  s <- get_store this ;;
  _basicConfig <- descend ("bc" +:+ _id s) observer ;;
  assign property _basicConfig index.

(** ToIntegerOrInfinity on the values that pass [!isNaN]. *)
Definition to_integer (v : value) : Z :=
  match v with
  | VNum n => n
  | VBool true => 1%Z
  | _ => 0%Z
  end.

(** [_list.splice(start, 1)] *)
Definition splice1 (start : Z) (_list : list value) : list value :=
  let len := Z.of_nat (length _list) in
  let actualStart :=
    if (start <? 0)%Z then Z.max (len + start) 0 else Z.min start len in
  delete (Z.to_nat actualStart) _list.

(** this.observeConfig = function observeConfig(observer, property, handler) *)
Definition observeConfig (observer : value) (property : string)
    (handler : value) : M unit :=
  _list <- getObserverList property ;;
  _index <- getObserverIndex observer property ;;
  match isNaN _index with
  | None => beyond
  | Some true =>
      let _list := _list ++ [handler] in
      set_observerList property _list ;;;
      setObserverIndex observer property (VNum (Z.of_nat (length _list) - 1))
  | Some false => ret tt
  end.

(** this.unobserveConfig = function unobserveConfig(observer, property) *)
Definition unobserveConfig (observer : value) (property : string) : M unit :=
  _list <- getObserverList property ;;
  _index <- getObserverIndex observer property ;;
  match isNaN _index with
  | None => beyond
  | Some false =>
      set_observerList property (splice1 (to_integer _index) _list) ;;;
      setObserverIndex observer property VNaN
  | Some true => ret tt
  end.

(** this.getConfigProperty = function getConfigProperty(property) *)
Definition getConfigProperty (property : string) : M value :=
  let _name := getPropertyName property in
  _parent <- getParentObject this property ;;
  member _name _parent.

(** How a function value runs is fixed later, by [invoke]. *)
Variable invoke : nat -> fid -> string -> value -> M unit.

Definition log_call (c : call) : M unit :=
  fun w => Ok tt (with_calls (calls w ++ [c]) w).

(** [handler.call(null, { property: property, value: value })] *)
Definition call_handler (depth : nat) (handler : value) (property : string)
    (v : value) : M unit :=
  match handler with
  | VFun f => log_call (Call depth f property v) ;;; invoke depth f property v
  | VRef _ => beyond
  | _ => throw_TypeError
  end.

(** [while (i--) { _list[i].call(...) }] *)
Fixpoint while_calls (depth : nat) (_list : list value) (i : nat)
    (property : string) (v : value) : M unit :=
  match i with
  | 0 => ret tt
  | S i =>
      call_handler depth (default VUndef (_list !! i)) property v ;;;
      while_calls depth _list i property v
  end.

(** function notify(property, value) *)
Definition notify (depth : nat) (property : string) (v : value) : M unit :=
  found <- observerList_member property ;;
  match found with
  | Some _ =>
      _list <- getObserverList property ;;
      while_calls depth _list (length _list) property v
  | None => ret tt
  end.

(** this.setConfigProperty = function setConfigProperty(property, value) *)
Definition setConfigProperty (depth : nat) (property : string) (v : value)
    : M unit :=
  let _name := getPropertyName property in
  _parent <- getParentObject this property ;;
  assign _name _parent v ;;;
  notify depth property v.

End Store.

(** [new BasicConfigStore()]; the identifier drawn by [createRandomString()]
    from the clock and [Math.random] is an input. *)
Definition BasicConfigStore (random_id : string) : M nat :=
  fun w =>
    let l := fresh (dom (heap w)) in
    let this := fresh (dom (stores w)) in
    Ok this (World (<[l := ∅]> (heap w))
                   (<[this := Store l ∅ random_id]> (stores w))
                   (calls w)).

(** function createConfig() *)
Definition createConfig (random_id : string) : M nat :=
  BasicConfigStore random_id.

(** [var global = new BasicConfigStore()], run once when the module loads. *)
Definition global : nat := 0.

Definition module_loaded (random_id : string) : world :=
  match BasicConfigStore random_id (World ∅ ∅ []) with
  | Ok _ w => w
  | _ => World ∅ ∅ []
  end.

(** ** Client code *)

(** The calls a client, or a handler, can make on a store. *)
Inductive cmd : Type :=
| SetConfigProperty (this : nat) (property : string) (v : value)
| GetConfigProperty (this : nat) (property : string)
| ObserveConfig (this : nat) (observer : value) (property : string) (handler : value)
| UnobserveConfig (this : nat) (observer : value) (property : string).

(** A function body: calls in sequence, each continuing with the value the
    call returned. *)
Inductive prog : Type :=
| Done
| Do (c : cmd) (k : value -> prog).

Section Run.

(** What each function does with the record [{property, value}] it is
    called with. *)
Variable code : fid -> string -> value -> prog.

Section Step.

Variable invoke : nat -> fid -> string -> value -> M unit.

Definition run_cmd (depth : nat) (c : cmd) : M value :=
  match c with
  | SetConfigProperty this property v =>
      setConfigProperty this invoke depth property v ;;; ret VUndef
  | GetConfigProperty this property =>
      getConfigProperty this property
  | ObserveConfig this observer property handler =>
      observeConfig this observer property handler ;;; ret VUndef
  | UnobserveConfig this observer property =>
      unobserveConfig this observer property ;;; ret VUndef
  end.

Fixpoint run (depth : nat) (p : prog) : M unit :=
  match p with
  | Done => ret tt
  | Do c k => v <- run_cmd depth c ;; run depth (k v)
  end.

End Step.

(** Calling the function [f]: its body runs one level deeper. *)
Fixpoint invoke (fuel : nat) (depth : nat) (f : fid) (property : string)
    (v : value) : M unit :=
  match fuel with
  | 0 => fun _ => OutOfFuel
  | S fuel => run (invoke fuel) (S depth) (code f property v)
  end.

(** A call made by the client, outside any handler. *)
Definition exec (fuel : nat) (c : cmd) : M value :=
  run_cmd (invoke fuel) 0 c.

End Run.

(** ** Vocabulary of the statements *)

(** The segments a path is resolved through, and the one it ends in. *)
Definition intermediates (path : string) : list string :=
  removelast (split path).

Definition final_segment (path : string) : string :=
  List.last (split path) path.

(** No segment of the path is the name of a built-in member. *)
Definition ordinary (path : string) : bool :=
  forallb (fun name => negb (builtin name)) (split path).

(** Descent along [names], one [descend] per name. *)
Fixpoint descend_all (names : list string) (_obj : value) : M value :=
  match names with
  | [] => ret _obj
  | name :: rest => _obj' <- descend name _obj ;; descend_all rest _obj'
  end.

(** The own member [name] of the object at [obj], if [obj] is one. *)
Definition own (h : gmap loc object) (obj : value) (name : string)
    : option value :=
  match obj with
  | VRef l => o ← h !! l; o !! name
  | _ => None
  end.

(** Following [names] from [obj] through members that are already there and
    truthy; [None] as soon as one is missing or falsy. *)
Fixpoint resolve (h : gmap loc object) (names : list string) (obj : value)
    : option value :=
  match names with
  | [] => Some obj
  | name :: rest =>
      match own h obj name with
      | Some v => if truthy v then resolve h rest v else None
      | None => None
      end
  end.

(** The members [(receiver, name)] read on the way. *)
Fixpoint links (h : gmap loc object) (names : list string) (obj : value)
    : list (value * string) :=
  match names with
  | [] => []
  | name :: rest =>
      match own h obj name with
      | Some v => (obj, name) :: (if truthy v then links h rest v else [])
      | None => []
      end
  end.

(** Descent along [names] comes to a mapping in which the next name is
    missing or falsy. *)
Fixpoint gap (h : gmap loc object) (names : list string) (obj : value)
    : bool :=
  match names with
  | [] => false
  | name :: rest =>
      match obj with
      | VRef l =>
          match h !! l with
          | Some o =>
              match o !! name with
              | Some v => if truthy v then gap h rest v else true
              | None => true
              end
          | None => false
          end
      | _ => false
      end
  end.

(** The handler calls logged from position [n] on that were issued at
    [depth]. *)
Definition calls_at (depth n : nat) (w : world) : list call :=
  filter (fun c => at_depth c = depth) (drop n (calls w)).

(** Members that hold a truthy value keep it. *)
Definition keeps_truthy (h h' : gmap loc object) : Prop :=
  forall obj name v,
    own h obj name = Some v -> truthy v = true -> own h' obj name = Some v.

(** The world an outcome leaves behind, when the model follows the run to
    its end. *)
Definition world_of {A} (r : result A) : option world :=
  match r with
  | Ok _ w | TypeError w => Some w
  | OutOfFuel | Beyond => None
  end.

(** A truthy primitive number or boolean. *)
Definition truthy_scalar (v : value) : bool :=
  match v with
  | VNum n => negb (n =? 0)%Z
  | VBool b => b
  | _ => false
  end.

(** The computation [m] leaves the part [proj] of the state as it was. *)
Definition preserves {X A} (proj : world -> X) (m : M A) : Prop :=
  forall w a w', m w = Ok a w' -> proj w' = proj w.

(** An object the client creates for its own use, an observer say. *)
Definition client_object (w : world) : world :=
  match new_object w with
  | Ok _ w' => w'
  | _ => w
  end.

(** Handlers that do nothing. *)
Definition idle : fid -> string -> value -> prog := fun _ _ _ => Done.

(** The observer [observer] carries, under the member [bc], a map that
    holds [index] for [property]. *)
Definition recorded (h : gmap loc object) (bc : string) (observer : value)
    (property : string) (index : value) : Prop :=
  exists lo oo lb ob,
    observer = VRef lo /\ h !! lo = Some oo /\ oo !! bc = Some (VRef lb) /\
    h !! lb = Some ob /\ ob !! property = Some index.

(** A list of calls as a function body. *)
Fixpoint script (cs : list cmd) : prog :=
  match cs with
  | [] => Done
  | c :: cs => Do c (fun _ => script cs)
  end.

(** The shape of store and heap in which [unobserveConfig(observer,
    property)] stays inside the model and does not throw: the store exists,
    the path is no built-in name, the observer is an object (or a number or
    boolean, which carries nothing), and what it carries under
    ['bc' + _id] is nothing, falsy, a number or boolean, or a map whose
    entry for the path, if any, [isNaN] decides. *)
Definition can_unobserve (w : world) (this : nat) (observer : value)
    (property : string) : bool :=
  match stores w !! this with
  | None => false
  | Some s =>
      negb (builtin property) &&
      match observer with
      | VRef lo =>
          match heap w !! lo with
          | None => false
          | Some oo =>
              match oo !! ("bc" +:+ _id s) with
              | None => true
              | Some (VRef lb) =>
                  match heap w !! lb with
                  | None => false
                  | Some ob =>
                      match ob !! property with
                      | None => true
                      | Some index => bool_decide (is_Some (isNaN index))
                      end
                  end
              | Some (VStr bc) => String.eqb bc ""
              | Some (VFun _) => false
              | Some _ => true
              end
          end
      | VBool _ | VNum _ | VNaN => true
      | _ => false
      end
  end.

(** A body that only unregisters, each time in a shape that
    [can_unobserve] accepts in [w]. *)
Fixpoint only_unobserves (w : world) (p : prog) : bool :=
  match p with
  | Done => true
  | Do (UnobserveConfig this observer property) k =>
      can_unobserve w this observer property && only_unobserves w (k VUndef)
  | Do _ _ => false
  end.

(** What removals can make of a state: stores keep their identifier, objects
    stay, and a member keeps its value or, if it had one, holds NaN. *)
Definition settles (w w' : world) : Prop :=
  (forall this s, stores w !! this = Some s ->
     exists s', stores w' !! this = Some s' /\ _id s' = _id s) /\
  (forall l o, heap w !! l = Some o ->
     exists o', heap w' !! l = Some o' /\
       forall name, o' !! name = o !! name \/
                    (is_Some (o !! name) /\ o' !! name = Some VNaN)).

(** The store a call is made on. *)
Definition addresses (c : cmd) : nat :=
  match c with
  | SetConfigProperty this _ _ | GetConfigProperty this _
  | ObserveConfig this _ _ _ | UnobserveConfig this _ _ => this
  end.

(** A value that, if it is a reference, refers into [X]. *)
Definition refs_in (X : gset loc) (v : value) : Prop :=
  match v with
  | VRef l => l ∈ X
  | _ => True
  end.

(** Every reference held by an object of [X] leads into [X] again. *)
Definition closed (h : gmap loc object) (X : gset loc) : Prop :=
  forall l o name l',
    l ∈ X -> h !! l = Some o -> o !! name = Some (VRef l') -> l' ∈ X.

(** A call on [this] whose arguments refer into [X]. *)
Definition cmd_in (this : nat) (X : gset loc) (c : cmd) : Prop :=
  addresses c = this /\
  match c with
  | SetConfigProperty _ _ v => refs_in X v
  | GetConfigProperty _ _ => True
  | ObserveConfig _ observer _ _ => refs_in X observer
  | UnobserveConfig _ observer _ => refs_in X observer
  end.

(** A body that calls [this] only, with arguments that refer into [X] or
    into what [X] has grown to when they are passed. *)
Fixpoint prog_in (this : nat) (X : gset loc) (p : prog) : Prop :=
  match p with
  | Done => True
  | Do c k =>
      cmd_in this X c /\
      forall X' v, X ⊆ X' -> refs_in X' v -> prog_in this X' (k v)
  end.

(** From [w] to [w'], calls on [this] with footprint [X] have changed, in the
    heap, only objects of [X] and objects that did not exist, [X'] being [X]
    with the new objects; and in the stores, only [this], keeping its root
    and identifier. *)
Definition touches (this : nat) (X : gset loc) (w w' : world)
    (X' : gset loc) : Prop :=
  X ⊆ X' /\
  closed (heap w') X' /\
  (forall l, l ∈ X' -> l ∉ X -> heap w !! l = None) /\
  (forall l, l ∉ X' -> heap w' !! l = heap w !! l) /\
  (forall that, that <> this -> stores w' !! that = stores w !! that) /\
  _data <$> (stores w' !! this) = _data <$> (stores w !! this) /\
  _id <$> (stores w' !! this) = _id <$> (stores w !! this).

(** The footprint [X] is closed and holds the root of [this]. *)
Definition footprint (this : nat) (X : gset loc) (w : world) : Prop :=
  closed (heap w) X /\
  (forall s, stores w !! this = Some s -> _data s ∈ X).

(** Run from a state with footprint [X], [m] stays within it, and what it
    returns satisfies [post] for the grown footprint. *)
Definition within {A} (this : nat) (X : gset loc) (m : M A)
    (post : gset loc -> A -> Prop) : Prop :=
  forall w a w',
    footprint this X w -> m w = Ok a w' ->
    exists X', touches this X w w' X' /\ post X' a.

(** A number or a boolean, NaN included. *)
Definition number_or_boolean (v : value) : bool :=
  match v with
  | VNum _ | VBool _ | VNaN => true
  | _ => false
  end.

(** A value with no [call] member to invoke: anything but a function or an
    object. *)
Definition not_callable (v : value) : bool :=
  match v with
  | VFun _ | VRef _ => false
  | _ => true
  end.

(** Every run of [m] that returns normally takes the state along [R]. *)
Definition respects {A} (R : world -> world -> Prop) (m : M A) : Prop :=
  forall w a w', m w = Ok a w' -> R w w'.

(** From [w] to [w'] nothing has gone: every store is still there with its
    root, its identifier and an array for every path that had one, and
    every object is still there with a member for every name that had
    one. *)
Definition grows (w w' : world) : Prop :=
  (forall this s, stores w !! this = Some s ->
     exists s', stores w' !! this = Some s' /\
       _data s' = _data s /\ _id s' = _id s /\
       forall key, is_Some (_observerList s !! key) -> is_Some (_observerList s' !! key)) /\
  (forall l o, heap w !! l = Some o ->
     exists o', heap w' !! l = Some o' /\
       forall name, is_Some (o !! name) -> is_Some (o' !! name)).

(** ** [createRandomString] *)

(** The clock and [Math.random] are inputs: [time] is what
    [(new Date()).getTime()] returns and [random i] is what
    [Math.floor(Math.random() * 16)] gives at the [i]-th turn of the loop.
    Strings are taken apart as lists of characters. *)

(** [time.toString(16)] for a time that is not negative. *)
Definition toString16 (time : N) : list ascii :=
  list_ascii_of_string
    match time with
    | N0 => "0"
    | Npos p => HexString.Raw.of_pos p ""
    end.

(** [str.substr(start, length)] with [start] not negative. *)
Definition substr (start len : nat) (str : list ascii) : list ascii :=
  take len (drop start str).

(** [str.substr(-n)]: the last [n] characters, all of them if there are
    fewer. *)
Definition substr_last (n : nat) (str : list ascii) : list ascii :=
  drop (length str - n) str.

(** [str.slice(0, n)] and [str.slice(n)]. *)
Definition slice_to (n : nat) (str : list ascii) : list ascii := take n str.
Definition slice_from (n : nat) (str : list ascii) : list ascii := drop n str.

(** [toUpperCase] on one character of the ASCII range. *)
Definition upper (c : ascii) : ascii :=
  let n := nat_of_ascii c in
  if (97 <=? n) && (n <=? 122) then ascii_of_nat (n - 32) else c.

Definition toUpperCase (str : list ascii) : list ascii := map upper str.

(** [while (_count--) { _value += "abcdef1234567890".substr(..., 1); }],
    at the [i]-th turn. *)
Fixpoint while_count (random : nat -> nat) (_count i : nat)
    (_value : list ascii) : list ascii :=
  match _count with
  | 0 => _value
  | S _count =>
      while_count random _count (S i)
        (_value ++ substr (random i) 1 (list_ascii_of_string "abcdef1234567890"))
  end.

(** function createRandomString() *)
Definition createRandomString (time : N) (random : nat -> nat) : string :=
  let _timeHex := substr_last 8 (toString16 time) in
  let _value := while_count random 24 0 [] in
  let _value := slice_to 20 _value ++ _timeHex ++ slice_from 20 _value in
  string_of_list_ascii (toUpperCase _value).

(** The characters an identifier is made of. *)
Definition upper_hex_digit (c : ascii) : bool :=
  existsb (Ascii.eqb c) (list_ascii_of_string "0123456789ABCDEF").

Definition lower_hex_digit (c : ascii) : bool :=
  existsb (Ascii.eqb c) (list_ascii_of_string "0123456789abcdef").

(** The digit drawn at each turn, as the loop appends it. *)
Definition digit (k : nat) : list ascii :=
  substr k 1 (list_ascii_of_string "abcdef1234567890").

(** The position of a character in the upper-case alphabet of the loop. *)
Fixpoint position (c : ascii) (alphabet : list ascii) : nat :=
  match alphabet with
  | [] => 0
  | a :: alphabet => if Ascii.eqb c a then 0 else S (position c alphabet)
  end.

(** * Properties *)

(** ** The monad *)

Lemma bind_Ok {A B} (m : M A) (k : A -> M B) w b w' :
  bind m k w = Ok b w' <-> exists a w1, m w = Ok a w1 /\ k a w1 = Ok b w'.
Proof.
  unfold bind. destruct (m w) as [a w1| | |]; split.
  - eauto.
  - intros (? & ? & [= <- <-] & ?). done.
  - done.
  - intros (? & ? & ? & ?). done.
  - done.
  - intros (? & ? & ? & ?). done.
  - done.
  - intros (? & ? & ? & ?). done.
Qed.

Lemma bind_ret_r {A} (m : M A) w : bind m ret w = m w.
Proof. unfold bind, ret. by destruct (m w). Qed.

Lemma bind_eq_Ok {A B} (m : M A) (k : A -> M B) w a w1 :
  m w = Ok a w1 -> bind m k w = k a w1.
Proof. unfold bind. by intros ->. Qed.

(** ** Paths *)

Lemma split_nonempty path : split path <> [].
Proof. destruct path as [|c rest]; simpl; [done|]. destruct (Ascii.eqb c "."); [done|]. by destruct (split rest). Qed.

Lemma split_no_separator path : has_separator path = false -> split path = [path].
Proof.
  induction path as [|c rest IH]; simpl; [done|].
  destruct (Ascii.eqb c "."); [done|]. intros H. by rewrite (IH H).
Qed.

Lemma split_separator path : has_separator path = true -> 2 <= length (split path).
Proof.
  induction path as [|c rest IH]; simpl; [done|].
  destruct (Ascii.eqb c ".").
  - intros _. pose proof (split_nonempty rest). destruct (split rest); simpl; [done|lia].
  - intros H. specialize (IH H). destruct (split rest); simpl in *; lia.
Qed.

Lemma getPropertyName_final path : getPropertyName path = final_segment path.
Proof.
  unfold getPropertyName, final_segment.
  destruct (has_separator path) eqn:Hsep.
  - pose proof (split_nonempty path) as Hne. cbv zeta.
    induction (split path) as [|a l IH]; [done|].
    destruct l as [|b l]; [done|].
    simpl length. replace (S (S (length l)) - 1) with (S (length (b :: l) - 1)) by (simpl; lia).
    rewrite lookup_cons. simpl List.last. rewrite IH; [|done]. done.
  - by rewrite split_no_separator.
Qed.

Lemma every_descend_all names index _obj w :
  2 <= length names ->
  every (index + length names - 1) names index _obj w
  = descend_all (removelast names) _obj w.
Proof.
  revert index _obj w. induction names as [|a l IH]; intros index _obj w Hlen; [simpl in Hlen; lia|].
  destruct l as [|b l]; [simpl in Hlen; lia|].
  destruct l as [|c l].
  - simpl. replace (index + 2 - 1) with (index + 1) by lia.
    rewrite Nat.ltb_irrefl. unfold bind. destruct (descend a _obj w); done.
  - change (removelast (a :: b :: c :: l)) with (a :: removelast (b :: c :: l)).
    cbn [every descend_all].
    assert ((index + 1 <? index + length (a :: b :: c :: l) - 1) = true) as ->.
    { apply Nat.ltb_lt. simpl. lia. }
    unfold bind. destruct (descend a _obj w) as [o w1| | |]; try done.
    replace (index + length (a :: b :: c :: l) - 1) with (S index + length (b :: c :: l) - 1) by (simpl; lia).
    apply IH. simpl. lia.
Qed.

Lemma getParentObject_descend_all this path w s :
  stores w !! this = Some s ->
  getParentObject this path w
  = descend_all (intermediates path) (VRef (_data s)) w.
Proof.
  intros Hs. unfold getParentObject, intermediates, get_store, bind at 1. rewrite Hs.
  destruct (has_separator path) eqn:Hsep.
  - cbv zeta. pose proof (split_separator _ Hsep).
    rewrite <- (every_descend_all _ 0) by done. done.
  - by rewrite split_no_separator.
Qed.

(** ** One step of descent *)

Lemma fresh_heap_None (h : gmap loc object) : h !! fresh (dom h) = None.
Proof. apply not_elem_of_dom, is_fresh. Qed.

Lemma descend_Ok name obj w v w' :
  descend name obj w = Ok v w' ->
  (own (heap w) obj name = Some v /\ truthy v = true /\ w' = w) \/
  (exists l0 o,
     obj = VRef l0 /\ heap w !! l0 = Some o /\ builtin name = false /\
     (forall u, o !! name = Some u -> truthy u = false) /\
     v = VRef (fresh (dom (heap w))) /\
     w' = with_heap (<[l0 := <[name := v]> o]> (<[fresh (dom (heap w)) := ∅]> (heap w))) w).
Proof.
  unfold descend, bind, member, new_object, assign, ret.
  destruct obj as [| |b|n| |s|l0|f]; try done;
    try (destruct (builtin name); [done|]; simpl; done).
  destruct (heap w !! l0) as [o|] eqn:Hl0; [|done].
  assert (fresh (dom (heap w)) <> l0) as Hne.
  { intros <-. by rewrite fresh_heap_None in Hl0. }
  destruct (o !! name) as [u|] eqn:Hname.
  - destruct (truthy u) eqn:Hu.
    + intros [= <- <-]. left. simpl. rewrite Hl0. simpl. done.
    + destruct (builtin name) eqn:Hb; [done|]. simpl.
      rewrite lookup_insert_ne by done. rewrite Hl0.
      intros [= <- <-]. right. exists l0, o. repeat split; try done.
      intros u' Hu'. congruence.
  - destruct (builtin name) eqn:Hb; [done|]. simpl.
    rewrite lookup_insert_ne by done. rewrite Hl0.
    intros [= <- <-]. right. exists l0, o. repeat split; try done.
    intros u Hu. congruence.
Qed.

Lemma descend_found name obj w v :
  own (heap w) obj name = Some v -> truthy v = true ->
  descend name obj w = Ok v w.
Proof.
  unfold own, descend, bind, member. destruct obj; try done.
  destruct (heap w !! l) as [o|]; [|done]. simpl. intros -> ->. done.
Qed.

Lemma descend_all_resolved names obj w parent :
  resolve (heap w) names obj = Some parent ->
  descend_all names obj w = Ok parent w.
Proof.
  revert obj. induction names as [|name rest IH]; intros obj; simpl.
  - by intros [= ->].
  - destruct (own (heap w) obj name) as [v|] eqn:Hown; [|done].
    destruct (truthy v) eqn:Hv; [|done]. intros Hres.
    rewrite (bind_eq_Ok _ _ _ _ _ (descend_found _ _ _ _ Hown Hv)). by apply IH.
Qed.

Lemma member_Ok name obj w v w' : member name obj w = Ok v w' -> w' = w.
Proof.
  unfold member. intros H.
  repeat (first [ congruence | match type of H with context [match ?x with _ => _ end] => destruct x end ]).
Qed.

Lemma member_TypeError name obj w w' : member name obj w = TypeError w' -> w' = w.
Proof.
  unfold member. intros H.
  repeat (first [ congruence | match type of H with context [match ?x with _ => _ end] => destruct x end ]).
Qed.

Lemma member_own name obj w v :
  own (heap w) obj name = Some v -> member name obj w = Ok v w.
Proof.
  unfold own, member. destruct obj; try done.
  destruct (heap w !! l); [|done]. simpl. by intros ->.
Qed.

(** ** Descent keeps what is already there *)


Lemma keeps_truthy_refl h : keeps_truthy h h.
Proof. by intros ???. Qed.

Lemma keeps_truthy_trans h1 h2 h3 :
  keeps_truthy h1 h2 -> keeps_truthy h2 h3 -> keeps_truthy h1 h3.
Proof. intros H12 H23 obj name v Hown Hv. eauto. Qed.

Lemma resolve_keeps_truthy h h' names obj parent :
  keeps_truthy h h' ->
  resolve h names obj = Some parent -> resolve h' names obj = Some parent.
Proof.
  intros Hk. revert obj. induction names as [|name rest IH]; intros obj; simpl; [done|].
  destruct (own h obj name) as [v|] eqn:Hown; [|done].
  destruct (truthy v) eqn:Hv; [|done].
  rewrite (Hk _ _ _ Hown Hv), Hv. apply IH.
Qed.

Lemma descend_post name obj w v w' :
  descend name obj w = Ok v w' ->
  own (heap w') obj name = Some v /\ truthy v = true /\
  keeps_truthy (heap w) (heap w') /\
  stores w' = stores w /\ calls w' = calls w.
Proof.
  intros H. apply descend_Ok in H as [(Hown & Hv & ->)|(l0 & o & -> & Hl0 & Hb & Hfalsy & -> & ->)].
  - auto using keeps_truthy_refl.
  - assert (fresh (dom (heap w)) <> l0) as Hne.
    { intros <-. by rewrite fresh_heap_None in Hl0. }
    simpl. rewrite lookup_insert_eq. simpl. rewrite lookup_insert_eq.
    repeat split; try done.
    intros obj name' v Hown Hv. destruct obj as [| | | | | |l1|]; try done.
    simpl in *. destruct (heap w !! l1) as [o1|] eqn:Hl1; [|done]. simpl in Hown.
    destruct (decide (l1 = l0)) as [->|Hne1].
    + rewrite lookup_insert_eq. simpl. assert (o1 = o) as -> by congruence.
      destruct (decide (name' = name)) as [->|Hnn].
      * rewrite (Hfalsy _ Hown) in Hv. done.
      * by rewrite lookup_insert_ne.
    + rewrite lookup_insert_ne by done.
      rewrite lookup_insert_ne; [by rewrite Hl1|].
      intros <-. by rewrite fresh_heap_None in Hl1.
Qed.

Lemma descend_all_post names obj w parent w' :
  descend_all names obj w = Ok parent w' ->
  resolve (heap w') names obj = Some parent /\
  keeps_truthy (heap w) (heap w') /\
  stores w' = stores w /\ calls w' = calls w.
Proof.
  revert obj w. induction names as [|name rest IH]; intros obj w; simpl.
  - intros [= <- <-]. auto using keeps_truthy_refl.
  - intros H. apply bind_Ok in H as (v & w1 & Hd & Hrest).
    apply descend_post in Hd as (Hown & Hv & Hk1 & Hs1 & Hc1).
    apply IH in Hrest as (Hres & Hk2 & Hs2 & Hc2).
    rewrite (Hk2 _ _ _ Hown Hv), Hv. repeat split; try congruence.
    eauto using keeps_truthy_trans.
Qed.


(** ** Reads *)

Lemma getConfigProperty_unfold this path w s :
  stores w !! this = Some s ->
  getConfigProperty this path w
  = bind (descend_all (intermediates path) (VRef (_data s)))
         (member (final_segment path)) w.
Proof.
  intros Hs. unfold getConfigProperty. rewrite getPropertyName_final.
  unfold bind at 1. rewrite (getParentObject_descend_all _ _ _ _ Hs). done.
Qed.




(** ** A primitive in the way *)

(** C10: where the root holds a truthy number or boolean under ["a"], both
    the read and the write of ["a.b.c"] end in a TypeError, thrown by the
    attempt to create the member ["b"] on the primitive. *)
Theorem C10_primitive_intermediate_throws code fuel this w s o u v :
  stores w !! this = Some s ->
  heap w !! _data s = Some o ->
  o !! "a" = Some u ->
  truthy_scalar u = true ->
  let w' := with_heap (<[fresh (dom (heap w)) := ∅]> (heap w)) w in
  exec code fuel (GetConfigProperty this "a.b.c") w = TypeError w' /\
  exec code fuel (SetConfigProperty this "a.b.c" v) w = TypeError w'.
Proof.
  intros Hs Hroot Ha Hu w'.
  assert (getParentObject this "a.b.c" w = TypeError w') as Hp.
  { rewrite (getParentObject_descend_all _ _ _ _ Hs).
    change (intermediates "a.b.c") with ["a"; "b"]. cbn [descend_all].
    assert (truthy u = true) as Ht by (destruct u; try done).
    rewrite (bind_eq_Ok _ _ _ u w).
    2:{ apply descend_found; [|done]. simpl. by rewrite Hroot. }
    unfold bind, descend, bind, member, new_object, assign.
    destruct u; try done; simpl; done. }
  split.
  - simpl. unfold getConfigProperty, bind. by rewrite Hp.
  - simpl. unfold setConfigProperty, bind. by rewrite Hp.
Qed.

Lemma C10_primitive_intermediate_throws_witness :
  let code := fun _ _ _ => Done in
  let w := World {[ 1%positive := {[ "a" := VNum 5 ]} ]}
                 {[ global := Store 1%positive ∅ "ID" ]} [] in
  exec code 0 (SetConfigProperty global "a" (VNum 5)) (module_loaded "ID")
    = Ok VUndef w /\
  truthy_scalar (VNum 5) = true /\
  exec code 0 (GetConfigProperty global "a.b.c") w
    = TypeError (with_heap (<[fresh (dom (heap w)) := ∅]> (heap w)) w) /\
  exec code 0 (SetConfigProperty global "a.b.c" (VStr "v")) w
    = TypeError (with_heap (<[fresh (dom (heap w)) := ∅]> (heap w)) w).
Proof.
  split; [vm_compute; reflexivity|]. split; [reflexivity|].
  exact (C10_primitive_intermediate_throws (fun _ _ _ => Done) 0 global
           (World {[ 1%positive := {[ "a" := VNum 5 ]} ]}
                  {[ global := Store 1%positive ∅ "ID" ]} [])
           (Store 1%positive ∅ "ID") {[ "a" := VNum 5 ]} (VNum 5) (VStr "v")
           eq_refl eq_refl eq_refl eq_refl).
Defined.

(** ** Writes *)

(** Descent either finds the whole way there and changes nothing, or ends in
    a mapping it has just created, which no member read on the way belongs
    to. *)
Lemma descend_all_cases names obj w parent w' :
  descend_all names obj w = Ok parent w' ->
  (resolve (heap w) names obj = Some parent /\ w' = w) \/
  (exists l, parent = VRef l /\ heap w !! l = None /\
     forall cell, cell ∈ links (heap w') names obj -> cell.1 <> parent).
Proof.
  revert obj w. induction names as [|name rest IH]; intros obj w; simpl.
  - intros [= <- <-]. by left.
  - intros H. apply bind_Ok in H as (u & w1 & Hd & Hrest).
    pose proof (descend_post _ _ _ _ _ Hd) as (Hown1 & Hu & _ & _ & _).
    pose proof (descend_all_post _ _ _ _ _ Hrest) as (_ & Hk & _ & _).
    rewrite (Hk _ _ _ Hown1 Hu), Hu.
    apply descend_Ok in Hd as [(Hown & _ & ->)|(l0 & o & -> & Hl0 & Hb & Hfalsy & -> & ->)].
    + rewrite Hown, Hu. apply IH in Hrest as [[Hres ->]|(l & -> & Hl & Hcells)]; [by left|].
      right. exists l. repeat split; try done.
      intros cell [->|Hin]%elem_of_cons; [|by apply Hcells].
      simpl. intros ->. simpl in Hown. by rewrite Hl in Hown.
    + right.
      assert (fresh (dom (heap w)) <> l0) as Hne.
      { intros <-. by rewrite fresh_heap_None in Hl0. }
      apply IH in Hrest as [[Hres ->]|(l & -> & Hl & Hcells)].
      * destruct rest as [|name2 rest].
        -- simpl in Hres. injection Hres as <-.
           exists (fresh (dom (heap w))). split; [done|]. split; [apply fresh_heap_None|].
           simpl. intros cell [->|Hin]%elem_of_cons; [|by apply elem_of_nil in Hin].
           simpl. congruence.
        -- simpl in Hres. rewrite lookup_insert_ne in Hres by done.
           rewrite lookup_insert_eq in Hres. simpl in Hres.
           rewrite lookup_empty in Hres. done.
      * simpl in Hl. exists l. split; [done|].
        assert (l <> l0) as Hll0.
        { intros ->. by rewrite lookup_insert_eq in Hl. }
        rewrite lookup_insert_ne in Hl by done.
        assert (l <> fresh (dom (heap w))) as Hlf.
        { intros ->. by rewrite lookup_insert_eq in Hl. }
        rewrite lookup_insert_ne in Hl by done.
        split; [done|].
        intros cell [->|Hin]%elem_of_cons; [|by apply Hcells].
        simpl. congruence.
Qed.

(** Writing one member leaves every way that does not read it as it was. *)
Lemma resolve_insert h lp o name v names obj parent :
  h !! lp = Some o ->
  (VRef lp, name) ∉ links h names obj ->
  resolve h names obj = Some parent ->
  resolve (<[lp := <[name := v]> o]> h) names obj = Some parent.
Proof.
  intros Hlp. revert obj. induction names as [|n rest IH]; intros obj; simpl; [done|].
  destruct (own h obj n) as [u|] eqn:Hown; [|done].
  destruct (truthy u) eqn:Hu; [|done].
  intros Hnotin Hres. apply not_elem_of_cons in Hnotin as [Hhead Htail].
  assert (own (<[lp := <[name := v]> o]> h) obj n = Some u) as ->.
  { destruct obj as [| | | | | |l1|]; try done. simpl in *.
    destruct (decide (l1 = lp)) as [->|Hne].
    - rewrite lookup_insert_eq. simpl. rewrite Hlp in Hown. simpl in Hown.
      rewrite lookup_insert_ne; [done|]. congruence.
    - by rewrite lookup_insert_ne. }
  rewrite Hu. by apply IH.
Qed.

Lemma assign_Ok name obj v w w' :
  assign name obj v w = Ok tt w' ->
  exists lp o, obj = VRef lp /\ heap w !! lp = Some o /\ builtin name = false /\
    w' = with_heap (<[lp := <[name := v]> o]> (heap w)) w.
Proof.
  unfold assign. destruct (builtin name); [done|].
  destruct obj; try done. destruct (heap w !! l) eqn:Hl; [|done].
  intros [= <-]. by eexists _, _.
Qed.

(** With no handler registered for [property], [notify] does nothing. *)
Lemma notify_nobody this invoke depth property v w s :
  stores w !! this = Some s ->
  default [] (_observerList s !! property) = [] ->
  forall w', notify this invoke depth property v w = Ok tt w' -> w' = w.
Proof.
  intros Hs Hnone w'. unfold notify, observerList_member, getObserverList, observerList_member, bind, get_store.
  rewrite Hs. destruct (_observerList s !! property) as [l|] eqn:Hl.
  - simpl in Hnone. subst l. unfold ret. rewrite Hs, Hl. simpl. by intros [= <-].
  - destruct (builtin property); [done|]. unfold ret. by intros [= <-].
Qed.




(** ** Reading what is not there *)

Lemma ordinary_segments path :
  ordinary path = true ->
  Forall (fun name => builtin name = false) (intermediates path) /\
  builtin (final_segment path) = false.
Proof.
  unfold ordinary, intermediates, final_segment.
  pose proof (split_nonempty path) as Hne.
  induction (split path) as [|a l IH]; [done|].
  simpl forallb. intros [Ha Hl]%andb_prop. apply negb_true_iff in Ha.
  destruct l as [|b l]; [by split|].
  destruct (IH ltac:(done) Hl) as [IH1 IH2].
  split; [|done]. change (removelast (a :: b :: l)) with (a :: removelast (b :: l)).
  by constructor.
Qed.

Lemma descend_creates name l w :
  heap w !! l = Some ∅ -> builtin name = false ->
  exists l' w', descend name (VRef l) w = Ok (VRef l') w' /\ heap w' !! l' = Some ∅.
Proof.
  intros Hl Hb. unfold descend, bind, member, new_object, assign, ret.
  rewrite Hl, lookup_empty, Hb. simpl.
  assert (fresh (dom (heap w)) <> l) as Hne.
  { intros <-. by rewrite fresh_heap_None in Hl. }
  rewrite lookup_insert_ne, Hl by done.
  eexists _, _. split; [done|]. simpl.
  rewrite lookup_insert_ne by done. by rewrite lookup_insert_eq.
Qed.

Lemma descend_all_creates names l w :
  heap w !! l = Some ∅ ->
  Forall (fun name => builtin name = false) names ->
  exists l' w', descend_all names (VRef l) w = Ok (VRef l') w' /\ heap w' !! l' = Some ∅.
Proof.
  revert l w. induction names as [|name rest IH]; intros l w Hl Hall; simpl.
  - by eexists _, _.
  - apply Forall_cons in Hall as [Hb Hall].
    destruct (descend_creates name l w Hl Hb) as (l1 & w1 & Hd & Hl1).
    rewrite (bind_eq_Ok _ _ _ _ _ Hd). by apply IH.
Qed.

Lemma descend_all_gap names obj w :
  gap (heap w) names obj = true ->
  Forall (fun name => builtin name = false) names ->
  exists l' w', descend_all names obj w = Ok (VRef l') w' /\ heap w' !! l' = Some ∅.
Proof.
  revert obj. induction names as [|name rest IH]; intros obj; simpl; [done|].
  intros Hgap [Hb Hall]%Forall_cons.
  destruct obj as [| | | | | |l|]; try done.
  destruct (heap w !! l) as [o|] eqn:Hl; [|done].
  assert (fresh (dom (heap w)) <> l) as Hne.
  { intros <-. by rewrite fresh_heap_None in Hl. }
  destruct (o !! name) as [u|] eqn:Hname; [destruct (truthy u) eqn:Hu|].
  - erewrite bind_eq_Ok; [by apply IH|].
    apply descend_found; [|done]. simpl. by rewrite Hl.
  - erewrite bind_eq_Ok.
    2:{ unfold descend, bind, member, new_object, assign, ret.
        rewrite Hl, Hname, Hu, Hb. simpl. rewrite lookup_insert_ne, Hl by done. done. }
    apply descend_all_creates; [|done]. simpl.
    rewrite lookup_insert_ne by done. by rewrite lookup_insert_eq.
  - erewrite bind_eq_Ok.
    2:{ unfold descend, bind, member, new_object, assign, ret.
        rewrite Hl, Hname, Hb. simpl. rewrite lookup_insert_ne, Hl by done. done. }
    apply descend_all_creates; [|done]. simpl.
    rewrite lookup_insert_ne by done. by rewrite lookup_insert_eq.
Qed.

(** C3, as amended: for a path of ordinary segment names, the read returns
    the absent marker, without failing, (1) when the root mapping is empty,
    as in a new store, (2) when an intermediate segment is missing or falsy
    below a mapping, and (3) when every intermediate segment is present and
    the parent mapping lacks the final segment, the state then staying as it
    was.  In (1) and (2) the missing intermediate mappings are created. *)
Theorem C3_read_of_missing_is_absent this path w s :
  stores w !! this = Some s ->
  ordinary path = true ->
  (heap w !! _data s = Some ∅ ->
     exists w', getConfigProperty this path w = Ok VUndef w') /\
  (gap (heap w) (intermediates path) (VRef (_data s)) = true ->
     exists w', getConfigProperty this path w = Ok VUndef w') /\
  (forall lp o,
     resolve (heap w) (intermediates path) (VRef (_data s)) = Some (VRef lp) ->
     heap w !! lp = Some o -> o !! final_segment path = None ->
     getConfigProperty this path w = Ok VUndef w).
Proof.
  intros Hs [Hinter Hfinal]%ordinary_segments.
  assert (forall l' w', heap w' !! l' = Some ∅ ->
            member (final_segment path) (VRef l') w' = Ok VUndef w') as Hempty.
  { intros l' w' Hl'. unfold member. by rewrite Hl', lookup_empty, Hfinal. }
  rewrite (getConfigProperty_unfold _ _ _ _ Hs). repeat split.
  - intros Hroot.
    destruct (descend_all_creates _ _ _ Hroot Hinter) as (l' & w' & Hd & Hl').
    exists w'. rewrite (bind_eq_Ok _ _ _ _ _ Hd). by apply Hempty.
  - intros Hgap.
    destruct (descend_all_gap _ _ _ Hgap Hinter) as (l' & w' & Hd & Hl').
    exists w'. rewrite (bind_eq_Ok _ _ _ _ _ Hd). by apply Hempty.
  - intros lp o Hres Hlp Hname.
    rewrite (bind_eq_Ok _ _ _ _ _ (descend_all_resolved _ _ _ _ Hres)).
    unfold member. by rewrite Hlp, Hname, Hfinal.
Qed.

Lemma C3_read_of_missing_is_absent_witness :
  let w := module_loaded "ID" in
  let s := Store 1%positive ∅ "ID" in
  stores w !! global = Some s /\
  ordinary "hello.nobody" = true /\
  heap w !! _data s = Some ∅ /\
  exists w', getConfigProperty global "hello.nobody" w = Ok VUndef w'.
Proof.
  split; [reflexivity|]. split; [reflexivity|]. split; [reflexivity|].
  exact (proj1 (C3_read_of_missing_is_absent global "hello.nobody"
                  (module_loaded "ID") (Store 1%positive ∅ "ID") eq_refl eq_refl)
               eq_refl).
Defined.

(** C3, as stated, fails.  With nothing ever written, the read of ["a"]
    that follows a read of ["a.b"] returns a mapping, not the absent marker;
    and where ["a"] holds 5, the read of ["a.b.c"], whose intermediate
    segment ["a.b"] is missing, fails. *)
Lemma C3_unwritten_path_not_absent :
  let code : fid -> string -> value -> prog := fun _ _ _ => Done in
  let w0 := module_loaded "ID" in
  (exists w1,
     exec code 0 (GetConfigProperty global "a.b") w0 = Ok VUndef w1 /\
     exec code 0 (GetConfigProperty global "a") w1 = Ok (VRef 2%positive) w1 /\
     heap w1 !! 2%positive = Some ∅) /\
  (exists w1 w2,
     exec code 0 (SetConfigProperty global "a" (VNum 5)) w0 = Ok VUndef w1 /\
     exec code 0 (GetConfigProperty global "a.b.c") w1 = TypeError w2).
Proof.
  split.
  - eexists. repeat split; vm_compute; reflexivity.
  - do 2 eexists. split; vm_compute; reflexivity.
Qed.

(** ** The log of handler calls *)

Lemma getObserverList_Ok this key w _list w' :
  getObserverList this key w = Ok _list w' ->
  exists s, stores w !! this = Some s /\
    _list = default [] (_observerList s !! key) /\
    heap w' = heap w /\ calls w' = calls w /\
    stores w' = <[this := Store (_data s) (<[key := _list]> (_observerList s)) (_id s)]> (stores w).
Proof.
  unfold getObserverList, observerList_member, set_observerList, put_observerList,
    bind, get_store, ret.
  destruct (stores w !! this) as [s|] eqn:Hs; [|done].
  destruct (_observerList s !! key) as [l|] eqn:Hl.
  - intros [= <- <-]. exists s. repeat split; try done.
    { by rewrite Hl. }
    rewrite (insert_id (_observerList s)) by done. symmetry. apply insert_id. by destruct s.
  - destruct (builtin key); [done|]. rewrite Hs. simpl. rewrite Hs. simpl.
    intros [= <- <-]. exists s. by rewrite Hl.
Qed.

Section Log.

Variable invoke : nat -> fid -> string -> value -> M unit.

(** What a handler logs while it runs was issued deeper than its own call. *)
Hypothesis invoke_deeper :
  forall depth f property v w w',
    invoke depth f property v w = Ok tt w' ->
    exists new, calls w' = calls w ++ new /\
      Forall (fun c => depth < at_depth c) new.

Lemma call_handler_log depth handler property v w w' :
  call_handler invoke depth handler property v w = Ok tt w' ->
  exists f new,
    handler = VFun f /\
    calls w' = calls w ++ Call depth f property v :: new /\
    Forall (fun c => depth < at_depth c) new.
Proof.
  destruct handler; try done. simpl. intros H.
  apply bind_Ok in H as ([] & w1 & [= <-] & H).
  apply invoke_deeper in H as (new & Hcalls & Hnew). simpl in Hcalls.
  exists f, new. rewrite Hcalls, <- app_assoc. done.
Qed.

Lemma filter_deeper depth (new : list call) :
  Forall (fun c => depth < at_depth c) new ->
  filter (fun c => at_depth c = depth) new = [].
Proof.
  induction 1 as [|c new Hc _ IH]; [done|].
  rewrite filter_cons_False; [done|lia].
Qed.

(** The loop calls the first [i] entries of the snapshot, last one first,
    whatever the handlers do in between. *)
Lemma while_calls_log depth _list i property v w w' :
  while_calls invoke depth _list i property v w = Ok tt w' ->
  exists fs new,
    take i _list = VFun <$> fs /\
    calls w' = calls w ++ new /\
    Forall (fun c => depth <= at_depth c) new /\
    filter (fun c => at_depth c = depth) new
    = (fun f => Call depth f property v) <$> reverse fs.
Proof.
  revert w. induction i as [|i IH]; intros w; simpl.
  - intros [= <-]. exists [], []. rewrite take_0, app_nil_r. done.
  - intros H. apply bind_Ok in H as ([] & w1 & Hcall & Hrest).
    apply call_handler_log in Hcall as (f & new1 & Hf & Hcalls1 & Hnew1).
    apply IH in Hrest as (fs & new2 & Htake & Hcalls2 & Hnew2 & Hfilter).
    destruct (_list !! i) as [h|] eqn:Hi; [|done]. simpl in Hf. subst h.
    exists (fs ++ [f]), (Call depth f property v :: new1 ++ new2). repeat split.
    + rewrite (take_S_r _ _ _ Hi), Htake, fmap_app. done.
    + rewrite Hcalls2, Hcalls1, <- app_assoc. done.
    + constructor; [simpl; lia|]. apply Forall_app. split; [|done].
      eapply Forall_impl; [exact Hnew1|]. simpl. lia.
    + rewrite filter_cons_True by done. rewrite filter_app, (filter_deeper _ _ Hnew1), Hfilter.
      rewrite reverse_app. done.
Qed.

Lemma notify_log this depth property v w w' s :
  stores w !! this = Some s ->
  notify this invoke depth property v w = Ok tt w' ->
  exists fs new,
    default [] (_observerList s !! property) = VFun <$> fs /\
    calls w' = calls w ++ new /\
    Forall (fun c => depth <= at_depth c) new /\
    filter (fun c => at_depth c = depth) new
    = (fun f => Call depth f property v) <$> reverse fs.
Proof.
  intros Hs H. unfold notify in H.
  apply bind_Ok in H as (found & w1 & Hfound & H).
  unfold observerList_member, bind, get_store in Hfound. rewrite Hs in Hfound.
  destruct (_observerList s !! property) as [l|] eqn:Hl.
  - injection Hfound as <- <-.
    apply bind_Ok in H as (_list & w2 & Hlist & H).
    apply getObserverList_Ok in Hlist as (s' & Hs' & -> & _ & Hcalls & _).
    assert (s' = s) as -> by congruence. rewrite Hl in H. simpl in H.
    apply while_calls_log in H as (fs & new & Htake & Hcalls' & Hnew & Hfilter).
    rewrite firstn_all in Htake. exists fs, new. simpl. by rewrite <- Hcalls.
  - destruct (builtin property); [done|]. injection Hfound as <- <-.
    injection H as <-. exists [], []. by rewrite app_nil_r.
Qed.

Lemma setConfigProperty_log this depth property v w w' s :
  stores w !! this = Some s ->
  setConfigProperty this invoke depth property v w = Ok tt w' ->
  exists fs new,
    default [] (_observerList s !! property) = VFun <$> fs /\
    calls w' = calls w ++ new /\
    Forall (fun c => depth <= at_depth c) new /\
    filter (fun c => at_depth c = depth) new
    = (fun f => Call depth f property v) <$> reverse fs.
Proof.
  intros Hs H. unfold setConfigProperty in H.
  apply bind_Ok in H as (parent & w1 & Hp & H).
  apply bind_Ok in H as ([] & w2 & Hassign & Hnotify).
  rewrite (getParentObject_descend_all _ _ _ _ Hs) in Hp.
  apply descend_all_post in Hp as (_ & _ & Hst1 & Hc1).
  apply assign_Ok in Hassign as (lp & o & -> & Hlp & Hb & ->).
  eapply notify_log in Hnotify; [|simpl; by rewrite Hst1].
  simpl in Hnotify. by rewrite Hc1 in Hnotify.
Qed.

End Log.

(** ** What each operation leaves alone *)

Lemma preserves_ret {X A} (proj : world -> X) (a : A) : preserves proj (ret a).
Proof. by intros w a' w' [= _ <-]. Qed.

Lemma preserves_bind {X A B} (proj : world -> X) (m : M A) (k : A -> M B) :
  preserves proj m -> (forall a, preserves proj (k a)) -> preserves proj (bind m k).
Proof.
  intros Hm Hk w b w' (a & w1 & H1 & H2)%bind_Ok.
  rewrite (Hk _ _ _ _ H2). eauto.
Qed.

Lemma preserves_beyond {X A} (proj : world -> X) : preserves proj (@beyond A).
Proof. by intros w a w'. Qed.

Lemma preserves_throw {X A} (proj : world -> X) : preserves proj (@throw_TypeError A).
Proof. by intros w a w'. Qed.

Lemma preserves_member {X} (proj : world -> X) name obj :
  preserves proj (member name obj).
Proof. intros w a w' H. by apply member_Ok in H as ->. Qed.

Lemma preserves_get_store {X} (proj : world -> X) this :
  preserves proj (get_store this).
Proof. intros w a w'. unfold get_store. destruct (stores w !! this); [|done]. by intros [= _ <-]. Qed.

Lemma preserves_assign_stores name obj v : preserves stores (assign name obj v).
Proof. intros w [] w' (? & ? & _ & _ & _ & ->)%assign_Ok. done. Qed.

Lemma preserves_assign_calls name obj v : preserves calls (assign name obj v).
Proof. intros w [] w' (? & ? & _ & _ & _ & ->)%assign_Ok. done. Qed.

Lemma preserves_new_object_stores : preserves stores new_object.
Proof. by intros w a w' [= _ <-]. Qed.

Lemma preserves_new_object_calls : preserves calls new_object.
Proof. by intros w a w' [= _ <-]. Qed.

Lemma preserves_put_observerList_heap this ol : preserves heap (put_observerList this ol).
Proof. intros w a w'. unfold put_observerList. destruct (stores w !! this); [|done]. by intros [= _ <-]. Qed.

Lemma preserves_put_observerList_calls this ol : preserves calls (put_observerList this ol).
Proof. intros w a w'. unfold put_observerList. destruct (stores w !! this); [|done]. by intros [= _ <-]. Qed.

Create HintDb frame.

#[local] Hint Resolve preserves_ret preserves_beyond preserves_throw
  preserves_member preserves_get_store
  preserves_assign_stores preserves_assign_calls
  preserves_new_object_stores preserves_new_object_calls
  preserves_put_observerList_heap preserves_put_observerList_calls : frame.

(** Goes through the binds and branches of a computation, leaving the calls
    it is made of to the hints. *)
Ltac frame :=
  repeat first
    [ progress eauto with frame
    | apply preserves_bind; [|intros ?]
    | match goal with
      | |- preserves _ (if ?b then _ else _) => destruct b
      | |- preserves _ (match ?x with _ => _ end) => destruct x
      end ].

Lemma preserves_descend_stores name obj : preserves stores (descend name obj).
Proof. unfold descend. frame. Qed.

Lemma preserves_descend_calls name obj : preserves calls (descend name obj).
Proof. unfold descend. frame. Qed.

#[local] Hint Resolve preserves_descend_stores preserves_descend_calls : frame.

Lemma preserves_every {X} (proj : world -> X) lastIndex _path index _obj :
  (forall name obj, preserves proj (descend name obj)) ->
  preserves proj (every lastIndex _path index _obj).
Proof.
  intros Hd. revert index _obj. induction _path as [|name rest IH]; intros index _obj; simpl.
  - apply preserves_ret.
  - apply preserves_bind; [apply Hd|]. intros o. destruct (index + 1 <? lastIndex); [apply IH|apply preserves_ret].
Qed.

Lemma preserves_getParentObject_stores this path : preserves stores (getParentObject this path).
Proof. unfold getParentObject. frame; apply preserves_every; eauto with frame. Qed.

Lemma preserves_getParentObject_calls this path : preserves calls (getParentObject this path).
Proof. unfold getParentObject. frame; apply preserves_every; eauto with frame. Qed.

#[local] Hint Resolve preserves_getParentObject_stores preserves_getParentObject_calls : frame.

Lemma preserves_getConfigProperty_stores this path : preserves stores (getConfigProperty this path).
Proof. unfold getConfigProperty. frame. Qed.

Lemma preserves_getConfigProperty_calls this path : preserves calls (getConfigProperty this path).
Proof. unfold getConfigProperty. frame. Qed.

Lemma preserves_getObserverIndex {X} (proj : world -> X) this observer property :
  preserves proj (getObserverIndex this observer property).
Proof. unfold getObserverIndex. frame. Qed.

Lemma preserves_set_observerList_heap this key l : preserves heap (set_observerList this key l).
Proof. unfold set_observerList. frame. Qed.

Lemma preserves_set_observerList_calls this key l : preserves calls (set_observerList this key l).
Proof. unfold set_observerList. frame. Qed.

#[local] Hint Resolve preserves_getObserverIndex preserves_set_observerList_heap
  preserves_set_observerList_calls : frame.

Lemma preserves_getObserverList_heap this key : preserves heap (getObserverList this key).
Proof. unfold getObserverList, observerList_member. frame. Qed.

Lemma preserves_getObserverList_calls this key : preserves calls (getObserverList this key).
Proof. unfold getObserverList, observerList_member. frame. Qed.

Lemma preserves_setObserverIndex_stores this observer property index :
  preserves stores (setObserverIndex this observer property index).
Proof. unfold setObserverIndex. frame. Qed.

Lemma preserves_setObserverIndex_calls this observer property index :
  preserves calls (setObserverIndex this observer property index).
Proof. unfold setObserverIndex. frame. Qed.

#[local] Hint Resolve preserves_getObserverList_heap preserves_getObserverList_calls
  preserves_setObserverIndex_stores preserves_setObserverIndex_calls : frame.

Lemma preserves_observeConfig_calls this observer property handler :
  preserves calls (observeConfig this observer property handler).
Proof. unfold observeConfig. frame. Qed.

Lemma preserves_unobserveConfig_calls this observer property :
  preserves calls (unobserveConfig this observer property).
Proof. unfold unobserveConfig. frame. Qed.

Section RunLog.

Variable invoke : nat -> fid -> string -> value -> M unit.

Hypothesis invoke_deeper :
  forall depth f property v w w',
    invoke depth f property v w = Ok tt w' ->
    exists new, calls w' = calls w ++ new /\
      Forall (fun c => depth < at_depth c) new.

Lemma run_cmd_log depth c w r w' :
  run_cmd invoke depth c w = Ok r w' ->
  exists new, calls w' = calls w ++ new /\
    Forall (fun c => depth <= at_depth c) new.
Proof.
  destruct c as [this property v|this property|this observer property handler|this observer property];
    simpl; intros H.
  - apply bind_Ok in H as ([] & w1 & H & [= _ <-]).
    destruct (stores w !! this) as [s|] eqn:Hs.
    + destruct (setConfigProperty_log _ invoke_deeper _ _ _ _ _ _ _ Hs H)
        as (fs & new & _ & Hcalls & Hnew & _). eauto.
    + unfold setConfigProperty, getParentObject, bind, get_store in H. by rewrite Hs in H.
  - apply preserves_getConfigProperty_calls in H. exists []. by rewrite app_nil_r.
  - apply bind_Ok in H as ([] & w1 & H & [= _ <-]).
    apply preserves_observeConfig_calls in H. exists []. by rewrite app_nil_r.
  - apply bind_Ok in H as ([] & w1 & H & [= _ <-]).
    apply preserves_unobserveConfig_calls in H. exists []. by rewrite app_nil_r.
Qed.

Lemma run_log depth p w w' :
  run invoke depth p w = Ok tt w' ->
  exists new, calls w' = calls w ++ new /\
    Forall (fun c => depth <= at_depth c) new.
Proof.
  revert w. induction p as [|c k IH]; intros w; simpl.
  - intros [= <-]. exists []. by rewrite app_nil_r.
  - intros H. apply bind_Ok in H as (r & w1 & Hc & Hk).
    apply run_cmd_log in Hc as (new1 & Hcalls1 & Hnew1).
    apply IH in Hk as (new2 & Hcalls2 & Hnew2).
    exists (new1 ++ new2). rewrite Hcalls2, Hcalls1, <- app_assoc. split; [done|].
    by apply Forall_app.
Qed.

End RunLog.

Lemma invoke_log code fuel depth f property v w w' :
  invoke code fuel depth f property v w = Ok tt w' ->
  exists new, calls w' = calls w ++ new /\
    Forall (fun c => depth < at_depth c) new.
Proof.
  revert depth f property v w w'. induction fuel as [|fuel IH]; intros depth f property v w w'; simpl; [done|].
  intros H. apply (run_log _ IH) in H as (new & Hcalls & Hnew).
  exists new. split; [done|]. eapply Forall_impl; [exact Hnew|]. simpl. lia.
Qed.

(** The calls a write makes itself are those of the handlers registered for
    its path when it starts, last registered first, each with the record of
    this write; nothing a handler does while it runs changes that. *)
Lemma write_calls_snapshot code fuel this property v w w' s :
  stores w !! this = Some s ->
  exec code fuel (SetConfigProperty this property v) w = Ok VUndef w' ->
  exists fs,
    default [] (_observerList s !! property) = VFun <$> fs /\
    calls_at 0 (length (calls w)) w'
    = (fun f => Call 0 f property v) <$> reverse fs.
Proof.
  intros Hs H. unfold exec, run_cmd in H.
  apply bind_Ok in H as ([] & w1 & H & [= <-]).
  destruct (setConfigProperty_log _ (invoke_log code fuel) _ _ _ _ _ _ _ Hs H)
    as (fs & new & Hfs & Hcalls & _ & Hfilter).
  exists fs. split; [done|]. unfold calls_at. by rewrite Hcalls, drop_app_length.
Qed.

(** ** Registration *)

Lemma member_heap name obj w v w1 w2 :
  member name obj w = Ok v w1 -> heap w2 = heap w -> member name obj w2 = Ok v w2.
Proof.
  unfold member. intros H Hh. rewrite Hh.
  repeat (first [ congruence | match type of H with context [match ?x with _ => _ end] => destruct x end ]).
Qed.

(** The recorded index is read from the heap and the store's identifier
    alone, and reading it changes nothing. *)
Lemma getObserverIndex_heap this observer property w index w1 :
  getObserverIndex this observer property w = Ok index w1 ->
  w1 = w /\
  forall s w2 s2,
    stores w !! this = Some s -> stores w2 !! this = Some s2 ->
    _id s2 = _id s -> heap w2 = heap w ->
    getObserverIndex this observer property w2 = Ok index w2.
Proof.
  intros H. split; [by apply (preserves_getObserverIndex id) in H|].
  intros s w2 s2 Hs Hs2 Hid Hh. revert H.
  unfold getObserverIndex, bind at 1 3, get_store. rewrite Hs, Hs2, Hid.
  intros (bc & w3 & Hbc & H)%bind_Ok.
  pose proof (member_Ok _ _ _ _ _ Hbc) as ->.
  rewrite (bind_eq_Ok _ _ _ _ _ (member_heap _ _ _ _ _ w2 Hbc Hh)).
  destruct (truthy bc).
  - pose proof (member_Ok _ _ _ _ _ H) as ->. by apply (member_heap _ _ _ _ _ w2 H).
  - destruct (builtin property); [done|]. by injection H as <- _.
Qed.

(** A call of [observeConfig] by an observer with no usable index for the
    path appends the handler to the path's array. *)
Lemma observeConfig_registers this observer property handler w w' s index :
  stores w !! this = Some s ->
  getObserverIndex this observer property w = Ok index w ->
  isNaN index = Some true ->
  observeConfig this observer property handler w = Ok tt w' ->
  stores w'
  = <[this := Store (_data s)
                (<[property := default [] (_observerList s !! property) ++ [handler]]>
                   (_observerList s))
                (_id s)]> (stores w) /\
  calls w' = calls w.
Proof.
  intros Hs Hindex Hnan H. unfold observeConfig in H.
  apply bind_Ok in H as (_list & w1 & Hlist & H).
  apply getObserverList_Ok in Hlist as (s' & Hs' & -> & Hh1 & Hc1 & Hst1).
  assert (s' = s) as -> by congruence.
  apply getObserverIndex_heap in Hindex as [_ Hindex].
  assert (stores w1 !! this = Some (Store (_data s)
            (<[property := default [] (_observerList s !! property)]> (_observerList s)) (_id s))) as Hs1.
  { by rewrite Hst1, lookup_insert_eq. }
  rewrite (bind_eq_Ok _ _ _ _ _ (Hindex _ _ _ Hs Hs1 eq_refl Hh1)), Hnan in H.
  apply bind_Ok in H as ([] & w2 & Hset & H).
  split.
  - rewrite (preserves_setObserverIndex_stores _ _ _ _ _ _ _ H).
    unfold set_observerList, put_observerList, bind, get_store in Hset.
    rewrite Hs1 in Hset. simpl in Hset. rewrite Hs1 in Hset. injection Hset as <-.
    simpl. rewrite Hst1, insert_insert_eq, insert_insert_eq. done.
  - rewrite (preserves_setObserverIndex_calls _ _ _ _ _ _ _ H).
    by rewrite (preserves_set_observerList_calls _ _ _ _ _ _ Hset).
Qed.





(** ** Removal *)

Lemma getObserverIndex_number this observer property w s n :
  stores w !! this = Some s ->
  getObserverIndex this observer property w = Ok (VNum n) w ->
  recorded (heap w) ("bc" +:+ _id s) observer property (VNum n).
Proof.
  intros Hs. unfold getObserverIndex, bind at 1, get_store. rewrite Hs.
  intros (bc & w1 & Hbc & H)%bind_Ok.
  pose proof (member_Ok _ _ _ _ _ Hbc) as ->.
  unfold member in Hbc.
  destruct observer as [| |?|?| |?|lo|?]; try done;
    try (destruct (builtin ("bc" +:+ _id s)); [done|]; injection Hbc as <-; simpl in H;
         by destruct (builtin property)).
  destruct (heap w !! lo) as [oo|] eqn:Hlo; [|done].
  destruct (oo !! ("bc" +:+ _id s)) as [bc'|] eqn:Hoo.
  2:{ destruct (builtin ("bc" +:+ _id s)); [done|]. injection Hbc as <-. simpl in H.
      by destruct (builtin property). }
  injection Hbc as ->.
  destruct (truthy bc) eqn:Ht.
  2:{ by destruct (builtin property). }
  unfold member in H.
  destruct bc as [| |?|?| |?|lb|?]; try done;
    try (by destruct (builtin property)).
  destruct (heap w !! lb) as [ob|] eqn:Hlb; [|done].
  destruct (ob !! property) as [index|] eqn:Hob.
  - injection H as ->. by exists lo, oo, lb, ob.
  - by destruct (builtin property).
Qed.

Lemma getObserverIndex_recorded this observer property w s index :
  stores w !! this = Some s ->
  recorded (heap w) ("bc" +:+ _id s) observer property index ->
  getObserverIndex this observer property w = Ok index w.
Proof.
  intros Hs (lo & oo & lb & ob & -> & Hlo & Hoo & Hlb & Hob).
  unfold getObserverIndex, bind, get_store, member. rewrite Hs, Hlo, Hoo. simpl.
  by rewrite Hlb, Hob.
Qed.

Lemma list_delete_ge {A} (l : list A) i : length l <= i -> delete i l = l.
Proof.
  intros H. rewrite delete_take_drop, take_ge, drop_ge, app_nil_r by lia. done.
Qed.

Lemma splice1_nat i (_list : list value) :
  splice1 (Z.of_nat i) _list = delete i _list.
Proof.
  unfold splice1. destruct (Z.ltb_spec (Z.of_nat i) 0); [lia|].
  destruct (decide (i <= length _list)).
  - f_equal. lia.
  - replace (Z.to_nat (Z.of_nat i `min` Z.of_nat (length _list))) with (length _list) by lia.
    rewrite !list_delete_ge; [done|lia|lia].
Qed.

(** What [unobserveConfig] does for an observer with a number recorded. *)
Lemma unobserveConfig_recorded this observer property w s _list i lo oo lb ob :
  stores w !! this = Some s ->
  _observerList s !! property = Some _list ->
  builtin property = false ->
  observer = VRef lo -> heap w !! lo = Some oo ->
  oo !! ("bc" +:+ _id s) = Some (VRef lb) ->
  heap w !! lb = Some ob -> ob !! property = Some (VNum (Z.of_nat i)) ->
  unobserveConfig this observer property w
  = Ok tt (World (<[lb := <[property := VNaN]> ob]> (heap w))
                 (<[this := Store (_data s)
                              (<[property := delete i _list]> (_observerList s))
                              (_id s)]> (stores w))
                 (calls w)).
Proof.
  intros Hs Hlist Hb -> Hlo Hoo Hlb Hob. unfold unobserveConfig.
  assert (getObserverList this property w = Ok _list w) as Hl.
  { unfold getObserverList, observerList_member, bind, get_store. by rewrite Hs, Hlist. }
  rewrite (bind_eq_Ok _ _ _ _ _ Hl).
  erewrite bind_eq_Ok.
  2:{ apply (getObserverIndex_recorded _ _ _ _ _ _ Hs). by exists lo, oo, lb, ob. }
  change (isNaN (VNum (Z.of_nat i))) with (Some false). cbv iota.
  change (to_integer (VNum (Z.of_nat i))) with (Z.of_nat i). rewrite splice1_nat.
  unfold set_observerList, put_observerList, setObserverIndex, bind, get_store.
  rewrite Hs. simpl. rewrite Hs. simpl. rewrite lookup_insert_eq. simpl.
  unfold descend, bind, member. simpl. rewrite Hlo, Hoo. simpl.
  unfold assign. rewrite Hb. simpl. rewrite Hlb. done.
Qed.

(** Invalidating one recorded number leaves a different recorded value of
    any observer in place. *)
Lemma recorded_insert h bc property lb1 ob1 n1 observer2 index2 :
  h !! lb1 = Some ob1 -> ob1 !! property = Some (VNum n1) ->
  index2 <> VNum n1 ->
  recorded h bc observer2 property index2 ->
  recorded (<[lb1 := <[property := VNaN]> ob1]> h) bc observer2 property index2.
Proof.
  intros Hlb1 Hob1 Hne (lo & oo & lb & ob & -> & Hlo & Hoo & Hlb & Hob).
  assert (lb <> lb1) as Hlb_ne.
  { intros ->. rewrite Hlb1 in Hlb. injection Hlb as <-. congruence. }
  destruct (decide (lo = lb1)) as [->|Hlo_ne].
  - rewrite Hlb1 in Hlo. injection Hlo as <-.
    assert (bc <> property) as Hbc by congruence.
    exists lb1, (<[property := VNaN]> ob1), lb, ob. repeat split; try done.
    + by rewrite lookup_insert_eq.
    + by rewrite lookup_insert_ne.
    + by rewrite lookup_insert_ne.
  - exists lo, oo, lb, ob. repeat split; try done; by rewrite lookup_insert_ne.
Qed.

Lemma recorded_invalidated h bc property lo oo lb ob n :
  h !! lo = Some oo -> oo !! bc = Some (VRef lb) ->
  h !! lb = Some ob -> ob !! property = Some (VNum n) ->
  recorded (<[lb := <[property := VNaN]> ob]> h) bc (VRef lo) property VNaN.
Proof.
  intros Hlo Hoo Hlb Hob.
  destruct (decide (lo = lb)) as [->|Hne].
  - rewrite Hlb in Hlo. injection Hlo as <-.
    assert (bc <> property) as Hbc by congruence.
    exists lb, (<[property := VNaN]> ob), lb, (<[property := VNaN]> ob).
    repeat split; try done; try by rewrite lookup_insert_eq.
    by rewrite lookup_insert_ne.
  - exists lo, oo, lb, (<[property := VNaN]> ob).
    repeat split; try done.
    + by rewrite lookup_insert_ne.
    + by rewrite lookup_insert_eq.
    + by rewrite lookup_insert_eq.
Qed.

(** C8: let two observers have the indices [i1 < i2] recorded for one path,
    the handler of the second sitting at [i2].  Removing the first shrinks
    the array, so that this handler sits at [i2 - 1], and invalidates the
    first observer's index only: the second still has [i2] recorded.  Its own
    removal then deletes position [i2] of the shrunk array, which is nothing
    when its handler was the last one and another observer's handler
    otherwise; its own handler stays registered either way. *)
Theorem C8_stale_index_after_removal this property observer1 observer2
    w s _list i1 i2 handler2 :
  stores w !! this = Some s ->
  _observerList s !! property = Some _list ->
  builtin property = false ->
  getObserverIndex this observer1 property w = Ok (VNum (Z.of_nat i1)) w ->
  getObserverIndex this observer2 property w = Ok (VNum (Z.of_nat i2)) w ->
  i1 < i2 ->
  _list !! i2 = Some handler2 ->
  exists w1 s1,
    unobserveConfig this observer1 property w = Ok tt w1 /\
    stores w1 !! this = Some s1 /\
    _observerList s1 !! property = Some (delete i1 _list) /\
    delete i1 _list !! (i2 - 1) = Some handler2 /\
    getObserverIndex this observer2 property w1 = Ok (VNum (Z.of_nat i2)) w1 /\
    getObserverIndex this observer1 property w1 = Ok VNaN w1 /\
    exists w2 s2,
      unobserveConfig this observer2 property w1 = Ok tt w2 /\
      stores w2 !! this = Some s2 /\
      _observerList s2 !! property = Some (delete i2 (delete i1 _list)) /\
      delete i2 (delete i1 _list) !! (i2 - 1) = Some handler2 /\
      (length _list = S i2 -> delete i2 (delete i1 _list) = delete i1 _list) /\
      (forall other, _list !! S i2 = Some other ->
         delete i1 _list !! i2 = Some other).
Proof.
  intros Hs Hlist Hb Hi1 Hi2 Hlt Hh2.
  pose proof (getObserverIndex_number _ _ _ _ _ _ Hs Hi1)
    as (lo1 & oo1 & lb1 & ob1 & -> & Hlo1 & Hoo1 & Hlb1 & Hob1).
  pose proof (getObserverIndex_number _ _ _ _ _ _ Hs Hi2) as Hrec2.
  pose proof (unobserveConfig_recorded _ _ _ _ _ _ _ _ _ _ _
                Hs Hlist Hb eq_refl Hlo1 Hoo1 Hlb1 Hob1) as Hun1.
  set (s1 := Store (_data s) (<[property := delete i1 _list]> (_observerList s)) (_id s)) in *.
  set (w1 := World (<[lb1 := <[property := VNaN]> ob1]> (heap w))
                   (<[this := s1]> (stores w)) (calls w)) in *.
  assert (stores w1 !! this = Some s1) as Hs1 by apply lookup_insert_eq.
  assert (_observerList s1 !! property = Some (delete i1 _list)) as Hlist1
    by apply lookup_insert_eq.
  assert (delete i1 _list !! (i2 - 1) = Some handler2) as Hmoved.
  { rewrite list_lookup_delete_ge by lia. by replace (S (i2 - 1)) with i2 by lia. }
  assert (recorded (heap w1) ("bc" +:+ _id s1) observer2 property (VNum (Z.of_nat i2))) as Hrec2'.
  { apply recorded_insert with (n1 := Z.of_nat i1); try done.
    intros [= H]. lia. }
  pose proof Hrec2' as (lo2 & oo2 & lb2 & ob2 & -> & Hlo2 & Hoo2 & Hlb2 & Hob2).
  pose proof (unobserveConfig_recorded _ _ _ _ _ _ _ _ _ _ _
                Hs1 Hlist1 Hb eq_refl Hlo2 Hoo2 Hlb2 Hob2) as Hun2.
  exists w1, s1. repeat split; try done.
  - by apply (getObserverIndex_recorded _ _ _ _ _ _ Hs1).
  - apply (getObserverIndex_recorded _ _ _ _ _ _ Hs1).
    by apply recorded_invalidated with (oo := oo1) (n := Z.of_nat i1).
  - eexists _, _. split; [exact Hun2|]. split; [apply lookup_insert_eq|].
    split; [apply lookup_insert_eq|]. split; [|split].
    + rewrite list_lookup_delete_lt by lia. done.
    + intros Hlen. apply list_delete_ge. rewrite length_delete; [lia|].
      apply lookup_lt_is_Some. lia.
    + intros other Hother. by rewrite list_lookup_delete_ge by lia.
Qed.

(** ** Handlers that unregister *)

Lemma builtin_bc id : builtin ("bc" +:+ id) = false.
Proof. reflexivity. Qed.

Lemma settles_refl w : settles w w.
Proof. split; [eauto|]. intros l o Hl. exists o. split; [done|]. by left. Qed.

Lemma settles_trans w1 w2 w3 : settles w1 w2 -> settles w2 w3 -> settles w1 w3.
Proof.
  intros [Hs12 Hh12] [Hs23 Hh23]. split.
  - intros this s Hs. destruct (Hs12 _ _ Hs) as (s2 & Hs2 & Hid2).
    destruct (Hs23 _ _ Hs2) as (s3 & Hs3 & Hid3). exists s3. split; [done|congruence].
  - intros l o Hl. destruct (Hh12 _ _ Hl) as (o2 & Hl2 & Ho2).
    destruct (Hh23 _ _ Hl2) as (o3 & Hl3 & Ho3). exists o3. split; [done|].
    intros name. destruct (Ho3 name) as [H3|[H3 H3']], (Ho2 name) as [H2|[H2 H2']].
    + left. congruence.
    + right. split; [done|congruence].
    + right. split; [by rewrite <- H2|done].
    + by right.
Qed.

Lemma can_unobserve_settles w w' this observer property :
  settles w w' ->
  can_unobserve w this observer property = true ->
  can_unobserve w' this observer property = true.
Proof.
  intros [Hst Hh]. unfold can_unobserve.
  destruct (stores w !! this) as [s|] eqn:Hs; [|done].
  destruct (Hst _ _ Hs) as (s' & -> & ->).
  destruct (negb (builtin property)); [simpl|done].
  destruct observer as [| |?|?| |?|lo|?]; try done.
  destruct (heap w !! lo) as [oo|] eqn:Hlo; [|done].
  destruct (Hh _ _ Hlo) as (oo' & -> & Hoo).
  destruct (Hoo ("bc" +:+ _id s)) as [->|[_ ->]]; [|done].
  destruct (oo !! ("bc" +:+ _id s)) as [[| |?|?| |?|lb|?]|]; try done.
  destruct (heap w !! lb) as [ob|] eqn:Hlb; [|done].
  destruct (Hh _ _ Hlb) as (ob' & -> & Hob).
  destruct (Hob property) as [->|[_ ->]]; done.
Qed.

Lemma getObserverList_total this key w s :
  stores w !! this = Some s -> builtin key = false ->
  exists _list w1,
    getObserverList this key w = Ok _list w1 /\
    calls w1 = calls w /\ settles w w1.
Proof.
  intros Hs Hb.
  assert (exists _list w1, getObserverList this key w = Ok _list w1) as (_list & w1 & H).
  { unfold getObserverList, observerList_member, set_observerList, put_observerList,
      bind, get_store, ret. rewrite Hs, Hb.
    destruct (_observerList s !! key); [by eexists _, _|].
    rewrite Hs. simpl. rewrite Hs. by eexists _, _. }
  exists _list, w1. split; [done|].
  apply getObserverList_Ok in H as (s' & Hs' & _ & Hh & Hc & Hst).
  split; [done|]. split.
  - intros t st Ht. rewrite Hst. destruct (decide (this = t)) as [->|Hne].
    + rewrite lookup_insert_eq. eexists. split; [done|]. simpl. congruence.
    + rewrite lookup_insert_ne by done. eauto.
  - intros l o Hl. rewrite Hh. exists o. split; [done|]. by left.
Qed.

(** The part of [unobserveConfig] after [getObserverList]. *)
Lemma unobserve_rest_total this observer property _list w :
  can_unobserve w this observer property = true ->
  exists w',
    bind (getObserverIndex this observer property)
      (fun _index =>
         match isNaN _index with
         | None => beyond
         | Some false =>
             set_observerList this property (splice1 (to_integer _index) _list) ;;;
             setObserverIndex this observer property VNaN
         | Some true => ret tt
         end) w = Ok tt w' /\
    calls w' = calls w /\ settles w w'.
Proof.
  unfold can_unobserve.
  destruct (stores w !! this) as [s|] eqn:Hs; [|done].
  destruct (builtin property) eqn:Hb; [done|]. simpl.
  pose proof (builtin_bc (_id s)) as Hbc.
  assert (forall bcv, truthy bcv = false ->
            member ("bc" +:+ _id s) observer w = Ok bcv w ->
            exists w', bind (getObserverIndex this observer property)
              (fun _index =>
                 match isNaN _index with
                 | None => beyond
                 | Some false =>
                     set_observerList this property (splice1 (to_integer _index) _list) ;;;
                     setObserverIndex this observer property VNaN
                 | Some true => ret tt
                 end) w = Ok tt w' /\ calls w' = calls w /\ settles w w') as Hfalsy.
  { intros bcv Hf Hm. exists w. split; [|auto using settles_refl].
    assert (getObserverIndex this observer property w = Ok VUndef w) as Hindex.
    { unfold getObserverIndex, bind at 1, get_store. rewrite Hs.
      rewrite (bind_eq_Ok _ _ _ _ _ Hm), Hf, Hb. done. }
    by rewrite (bind_eq_Ok _ _ _ _ _ Hindex). }
  assert (forall bcv, truthy bcv = true ->
            member ("bc" +:+ _id s) observer w = Ok bcv w ->
            member property bcv w = Ok VUndef w ->
            exists w', bind (getObserverIndex this observer property)
              (fun _index =>
                 match isNaN _index with
                 | None => beyond
                 | Some false =>
                     set_observerList this property (splice1 (to_integer _index) _list) ;;;
                     setObserverIndex this observer property VNaN
                 | Some true => ret tt
                 end) w = Ok tt w' /\ calls w' = calls w /\ settles w w') as Htruthy.
  { intros bcv Ht Hm Hp. exists w. split; [|auto using settles_refl].
    assert (getObserverIndex this observer property w = Ok VUndef w) as Hindex.
    { unfold getObserverIndex, bind at 1, get_store. rewrite Hs.
      rewrite (bind_eq_Ok _ _ _ _ _ Hm), Ht. done. }
    by rewrite (bind_eq_Ok _ _ _ _ _ Hindex). }
  destruct observer as [| |b|n| |?|lo|?]; try done;
    try (intros _; apply (Hfalsy VUndef); [done|]; unfold member; by rewrite Hbc).
  destruct (heap w !! lo) as [oo|] eqn:Hlo; [|done].
  destruct (oo !! ("bc" +:+ _id s)) as [bcv|] eqn:Hoo.
  2:{ intros _. apply (Hfalsy VUndef); [done|]. unfold member. by rewrite Hlo, Hoo, Hbc. }
  assert (member ("bc" +:+ _id s) (VRef lo) w = Ok bcv w) as Hm.
  { unfold member. by rewrite Hlo, Hoo. }
  destruct bcv as [| |b|n| |bc|lb|?]; try done;
    try (intros _; eapply Hfalsy; [|exact Hm]; reflexivity).
  - intros _. destruct b; [|by apply (Hfalsy (VBool false))].
    apply (Htruthy (VBool true) eq_refl Hm). unfold member. by rewrite Hb.
  - intros _. destruct (truthy (VNum n)) eqn:Ht; [|by apply (Hfalsy (VNum n))].
    apply (Htruthy (VNum n) Ht Hm). unfold member. by rewrite Hb.
  - intros Hempty. apply String.eqb_eq in Hempty as ->. by apply (Hfalsy (VStr "")).
  - destruct (heap w !! lb) as [ob|] eqn:Hlb; [|done].
    destruct (ob !! property) as [index|] eqn:Hob.
    2:{ intros _. apply (Htruthy (VRef lb) eq_refl Hm). unfold member. by rewrite Hlb, Hob, Hb. }
    intros [b Hnan]%bool_decide_eq_true.
    assert (getObserverIndex this (VRef lo) property w = Ok index w) as Hindex.
    { apply (getObserverIndex_recorded _ _ _ _ _ _ Hs). by exists lo, oo, lb, ob. }
    rewrite (bind_eq_Ok _ _ _ _ _ Hindex), Hnan.
    destruct b; [exists w; auto using settles_refl|].
    eexists. split.
    { unfold set_observerList, put_observerList, setObserverIndex, bind, get_store.
      rewrite Hs. simpl. rewrite Hs. simpl. rewrite lookup_insert_eq. simpl.
      unfold descend, bind, member. simpl. rewrite Hlo, Hoo. simpl.
      unfold assign. rewrite Hb. simpl. rewrite Hlb. reflexivity. }
    split; [done|]. split; simpl.
    + intros t st Ht. destruct (decide (this = t)) as [->|Hne].
      * rewrite lookup_insert_eq. eexists. split; [done|]. simpl. congruence.
      * rewrite lookup_insert_ne by done. eauto.
    + intros l o Hl. destruct (decide (lb = l)) as [->|Hne].
      * rewrite lookup_insert_eq. eexists. split; [done|].
        intros name. destruct (decide (property = name)) as [->|Hnn].
        -- right. rewrite lookup_insert_eq. split; [|done]. rewrite Hlb in Hl.
           injection Hl as <-. by rewrite Hob.
        -- left. rewrite lookup_insert_ne by done. congruence.
      * rewrite lookup_insert_ne by done. exists o. split; [done|]. by left.
Qed.

Lemma unobserveConfig_total this observer property w :
  can_unobserve w this observer property = true ->
  exists w',
    unobserveConfig this observer property w = Ok tt w' /\
    calls w' = calls w /\ settles w w'.
Proof.
  intros Hcan. pose proof Hcan as Hcan'. unfold can_unobserve in Hcan'.
  destruct (stores w !! this) as [s|] eqn:Hs; [|done].
  destruct (builtin property) eqn:Hb; [done|].
  destruct (getObserverList_total _ _ _ _ Hs Hb) as (_list & w1 & Hl & Hc1 & Hsettle1).
  destruct (unobserve_rest_total this observer property _list w1
              (can_unobserve_settles _ _ _ _ _ Hsettle1 Hcan)) as (w' & Hrest & Hc & Hsettle).
  exists w'. split.
  - unfold unobserveConfig. by rewrite (bind_eq_Ok _ _ _ _ _ Hl).
  - split; [congruence|]. by eapply settles_trans.
Qed.

Lemma run_only_unobserves invoke depth w0 p w :
  only_unobserves w0 p = true ->
  settles w0 w ->
  exists w', run invoke depth p w = Ok tt w' /\ calls w' = calls w /\ settles w0 w'.
Proof.
  revert w. induction p as [|c k IH]; intros w.
  - intros _ Hsettle. by exists w.
  - destruct c as [| | |this observer property]; try done.
    cbn [only_unobserves run run_cmd].
    intros [Hcan Hrest]%andb_prop Hsettle.
    destruct (unobserveConfig_total _ _ _ _ (can_unobserve_settles _ _ _ _ _ Hsettle Hcan))
      as (w1 & Hun & Hc1 & Hsettle1).
    destruct (IH VUndef w1 Hrest (settles_trans _ _ _ Hsettle Hsettle1))
      as (w' & Hrun & Hc & Hsettle').
    exists w'. split; [|split; [congruence|done]].
    rewrite (bind_eq_Ok _ _ _ VUndef w1); [done|].
    by rewrite (bind_eq_Ok _ _ _ _ _ Hun).
Qed.

Lemma while_calls_unobserving code fuel depth property v w0 fs i w :
  (forall f, f ∈ fs -> only_unobserves w0 (code f property v) = true) ->
  i <= length fs ->
  settles w0 w ->
  exists w',
    while_calls (invoke code (S fuel)) depth (VFun <$> fs) i property v w = Ok tt w' /\
    calls w' = calls w ++ ((fun f => Call depth f property v) <$> reverse (take i fs)) /\
    settles w0 w'.
Proof.
  intros Hfs. revert w. induction i as [|i IH]; intros w Hi Hsettle.
  - exists w. by rewrite take_0, app_nil_r.
  - destruct (lookup_lt_is_Some_2 fs i ltac:(lia)) as [f Hf].
    cbn [while_calls]. rewrite list_lookup_fmap, Hf. simpl.
    assert (settles w0 (with_calls (calls w ++ [Call depth f property v]) w)) as Hsettle1
      by exact Hsettle.
    destruct (run_only_unobserves (invoke code fuel) (S depth) w0 _ _
                (Hfs f ltac:(by eapply list_elem_of_lookup_2)) Hsettle1)
      as (w1 & Hrun & Hc1 & Hsettle2).
    destruct (IH w1 ltac:(lia) Hsettle2) as (w' & Hloop & Hc & Hsettle').
    exists w'. split; [|split; [|done]].
    + rewrite (bind_eq_Ok _ _ _ tt w1); [done|].
      rewrite (bind_eq_Ok _ _ _ tt (with_calls (calls w ++ [Call depth f property v]) w)); done.
    + rewrite Hc, Hc1. simpl. rewrite (take_S_r _ _ _ Hf), reverse_app, <- app_assoc. done.
Qed.

(** C6: let the handlers registered for a path when [notify] starts be
    functions that only call [unobserveConfig], for themselves or for anyone
    else, on this path or another.  Then [notify] returns normally and has
    called every one of them, last registered first: the array the handlers
    shrink while they run is not the one the loop walks. *)
Theorem C6_notify_calls_whole_snapshot code fuel this depth property v w s fs :
  stores w !! this = Some s ->
  _observerList s !! property = Some (VFun <$> fs) ->
  (forall f, f ∈ fs -> only_unobserves w (code f property v) = true) ->
  exists w',
    notify this (invoke code (S fuel)) depth property v w = Ok tt w' /\
    calls w' = calls w ++ ((fun f => Call depth f property v) <$> reverse fs).
Proof.
  intros Hs Hlist Hfs.
  destruct (while_calls_unobserving code fuel depth property v w fs (length fs) w
              Hfs ltac:(lia) (settles_refl w)) as (w' & Hloop & Hc & _).
  exists w'. rewrite firstn_all in Hc. split; [|done].
  unfold notify, observerList_member, getObserverList, observerList_member, bind, get_store, ret.
  rewrite Hs, Hlist, Hs, Hlist. by rewrite length_fmap.
Qed.

Lemma C6_notify_calls_whole_snapshot_witness :
  let observer1 := VRef 2%positive in
  let observer2 := VRef 3%positive in
  let code : fid -> string -> value -> prog := fun f _ _ =>
    match f with
    | 1 => script [UnobserveConfig global observer1 "theme"]
    | _ => script [UnobserveConfig global observer2 "theme"]
    end in
  let s2 := Store 1%positive {[ "theme" := [VFun 1; VFun 2] ]} "ID" in
  let w2 := World {[ 1%positive := ∅;
                     2%positive := {[ "bcID" := VRef 4%positive ]};
                     3%positive := {[ "bcID" := VRef 5%positive ]};
                     4%positive := {[ "theme" := VNum 0 ]};
                     5%positive := {[ "theme" := VNum 1 ]} ]}
                  {[ global := s2 ]} [] in
  only_unobserves w2 (code 1 "theme" (VStr "dark")) = true /\
  only_unobserves w2 (code 2 "theme" (VStr "dark")) = true /\
  exists w',
    notify global (invoke code 1) 0 "theme" (VStr "dark") w2 = Ok tt w' /\
    calls w' = [Call 0 2 "theme" (VStr "dark"); Call 0 1 "theme" (VStr "dark")] /\
    _observerList <$> (stores w' !! global) = Some {[ "theme" := [] ]}.
Proof.
  intros observer1 observer2 code s2 w2.
  assert (only_unobserves w2 (code 1 "theme" (VStr "dark")) = true) as H1
    by (vm_compute; reflexivity).
  assert (only_unobserves w2 (code 2 "theme" (VStr "dark")) = true) as H2
    by (vm_compute; reflexivity).
  split; [exact H1|]. split; [exact H2|].
  destruct (C6_notify_calls_whole_snapshot code 0 global 0 "theme" (VStr "dark")
              w2 s2 [1; 2] eq_refl eq_refl) as (w' & Hnotify & Hcalls).
  { intros f [->|[->|[]%elem_of_nil]%elem_of_cons]%elem_of_cons; assumption. }
  exists w'. split; [exact Hnotify|]. split; [exact Hcalls|].
  assert (notify global (invoke code 1) 0 "theme" (VStr "dark") w2
          = Ok tt (World {[ 1%positive := ∅;
                            2%positive := {[ "bcID" := VRef 4%positive ]};
                            3%positive := {[ "bcID" := VRef 5%positive ]};
                            4%positive := {[ "theme" := VNaN ]};
                            5%positive := {[ "theme" := VNaN ]} ]}
                         {[ global := Store 1%positive {[ "theme" := [] ]} "ID" ]}
                         [Call 0 2 "theme" (VStr "dark"); Call 0 1 "theme" (VStr "dark")]))
    as Hrun by (vm_compute; reflexivity).
  rewrite Hrun in Hnotify. injection Hnotify as <-. reflexivity.
Defined.

(** C4 against the code.  Two observers register for ["theme"] and then
    unregister, the one registered first going first; a write then still
    calls the second observer's handler.  And with a third observer
    registered and never unregistered, the same two removals take the third
    observer's handler out: the write calls the second observer's handler
    and not the third's. *)
Lemma C4_unobserve_misses_after_earlier_removal :
  let observer1 := VRef 2%positive in
  let observer2 := VRef 3%positive in
  let observer3 := VRef 4%positive in
  let w := client_object (client_object (client_object (module_loaded "ID"))) in
  (exists w',
     run (invoke idle 1) 0
       (script [ ObserveConfig global observer1 "theme" (VFun 1);
                 ObserveConfig global observer2 "theme" (VFun 2);
                 UnobserveConfig global observer1 "theme";
                 UnobserveConfig global observer2 "theme";
                 SetConfigProperty global "theme" (VStr "dark") ]) w = Ok tt w' /\
     calls w' = [Call 0 2 "theme" (VStr "dark")]) /\
  (exists w',
     run (invoke idle 1) 0
       (script [ ObserveConfig global observer1 "theme" (VFun 1);
                 ObserveConfig global observer2 "theme" (VFun 2);
                 ObserveConfig global observer3 "theme" (VFun 3);
                 UnobserveConfig global observer1 "theme";
                 UnobserveConfig global observer2 "theme";
                 SetConfigProperty global "theme" (VStr "dark") ]) w = Ok tt w' /\
     calls w' = [Call 0 2 "theme" (VStr "dark")]).
Proof.
  split; eexists; split; vm_compute; reflexivity.
Qed.

Lemma C8_stale_index_after_removal_witness :
  let observer1 := VRef 2%positive in
  let observer2 := VRef 3%positive in
  let s := Store 1%positive {[ "theme" := [VFun 1; VFun 2; VFun 3] ]} "ID" in
  let w := World {[ 1%positive := ∅;
                    2%positive := {[ "bcID" := VRef 5%positive ]};
                    3%positive := {[ "bcID" := VRef 6%positive ]};
                    4%positive := {[ "bcID" := VRef 7%positive ]};
                    5%positive := {[ "theme" := VNum 0 ]};
                    6%positive := {[ "theme" := VNum 1 ]};
                    7%positive := {[ "theme" := VNum 2 ]} ]}
                 {[ global := s ]} [] in
  run (invoke idle 1) 0
    (script [ ObserveConfig global observer1 "theme" (VFun 1);
              ObserveConfig global observer2 "theme" (VFun 2);
              ObserveConfig global (VRef 4%positive) "theme" (VFun 3) ])
    (client_object (client_object (client_object (module_loaded "ID")))) = Ok tt w /\
  exists w1 w2 s2,
    unobserveConfig global observer1 "theme" w = Ok tt w1 /\
    getObserverIndex global observer2 "theme" w1 = Ok (VNum 1) w1 /\
    unobserveConfig global observer2 "theme" w1 = Ok tt w2 /\
    stores w2 !! global = Some s2 /\
    _observerList s2 !! "theme" = Some [VFun 2].
Proof.
  intros observer1 observer2 s w. split; [vm_compute; reflexivity|].
  destruct (C8_stale_index_after_removal global "theme" observer1 observer2
              w s [VFun 1; VFun 2; VFun 3] 0 1 (VFun 2)
              eq_refl eq_refl eq_refl eq_refl eq_refl ltac:(lia) eq_refl)
    as (w1 & s1 & Hun1 & _ & _ & _ & Hindex2 & _ & w2 & s2 & Hun2 & Hs2 & Hlist2 & _).
  exists w1, w2, s2. repeat split; assumption.
Defined.

(** ** Instances *)

Lemma refs_in_mono X X' v : X ⊆ X' -> refs_in X v -> refs_in X' v.
Proof. destruct v; simpl; set_solver. Qed.

Lemma cmd_in_mono this X X' c : X ⊆ X' -> cmd_in this X c -> cmd_in this X' c.
Proof. intros HX [Ha Hc]. split; [done|]. destruct c; eauto using refs_in_mono. Qed.

Lemma prog_in_mono this X X' p : X ⊆ X' -> prog_in this X p -> prog_in this X' p.
Proof.
  destruct p as [|c k]; [done|]. intros HX [Hc Hk]. split.
  - by eapply cmd_in_mono.
  - intros X'' v HX' Hv. apply Hk; [set_solver|done].
Qed.

Lemma touches_refl this X w : footprint this X w -> touches this X w w X.
Proof.
  intros [Hc _]. split; [done|]. split; [done|]. split; [done|]. done.
Qed.

Lemma touches_trans this X w w1 X1 w2 X2 :
  touches this X w w1 X1 -> touches this X1 w1 w2 X2 -> touches this X w w2 X2.
Proof.
  intros (HX1 & Hc1 & Hnew1 & Hout1 & Hst1 & Hd1 & Hi1) (HX2 & Hc2 & Hnew2 & Hout2 & Hst2 & Hd2 & Hi2).
  split; [set_solver|]. split; [done|]. split; [|split; [|split; [|split; congruence]]].
  - intros l Hl2 Hl. destruct (decide (l ∈ X1)) as [Hl1|Hl1]; [by apply Hnew1|].
    rewrite <- Hout1 by done. by apply Hnew2.
  - intros l Hl2. rewrite Hout2 by done. apply Hout1. set_solver.
  - intros that Hne. rewrite Hst2 by done. by apply Hst1.
Qed.

Lemma touches_footprint this X w w' X' :
  footprint this X w -> touches this X w w' X' -> footprint this X' w'.
Proof.
  intros [_ Hroot] (HX & Hc & _ & _ & _ & Hd & _). split; [done|].
  intros s' Hs'. rewrite Hs' in Hd. simpl in Hd.
  destruct (stores w !! this) as [s|] eqn:Hs; [|done].
  injection Hd as ->. apply HX. by apply Hroot.
Qed.

(** A step that leaves the heap alone and, in the stores, changes at most
    the arrays of [this]. *)
Lemma touches_stores this X w w' :
  footprint this X w ->
  heap w' = heap w ->
  (forall that, that <> this -> stores w' !! that = stores w !! that) ->
  _data <$> (stores w' !! this) = _data <$> (stores w !! this) ->
  _id <$> (stores w' !! this) = _id <$> (stores w !! this) ->
  touches this X w w' X.
Proof.
  intros [Hc _] Hh Hst Hd Hi. split; [done|]. rewrite Hh. done.
Qed.

Lemma within_ret {A} this X (a : A) (post : gset loc -> A -> Prop) :
  post X a -> within this X (ret a) post.
Proof. intros Hp w a' w' Hf [= <- <-]. exists X. auto using touches_refl. Qed.

Lemma within_bind {A B} this X (m : M A) (k : A -> M B) post1 post2 :
  within this X m post1 ->
  (forall X1 a, X ⊆ X1 -> post1 X1 a -> within this X1 (k a) post2) ->
  within this X (bind m k) post2.
Proof.
  intros Hm Hk w b w' Hf (a & w1 & H1 & H2)%bind_Ok.
  destruct (Hm _ _ _ Hf H1) as (X1 & Ht1 & Hp1).
  destruct (Hk X1 a ltac:(by destruct Ht1) Hp1 _ _ _ (touches_footprint _ _ _ _ _ Hf Ht1) H2)
    as (X2 & Ht2 & Hp2).
  exists X2. eauto using touches_trans.
Qed.

Lemma within_weaken {A} this X (m : M A) (post post' : gset loc -> A -> Prop) :
  within this X m post -> (forall X' a, X ⊆ X' -> post X' a -> post' X' a) ->
  within this X m post'.
Proof.
  intros Hm Hp w a w' Hf H. destruct (Hm _ _ _ Hf H) as (X' & Ht & Hpost).
  exists X'. split; [done|]. apply Hp; [by destruct Ht|done].
Qed.

Lemma within_fail {A} this X (m : M A) post :
  (forall w a w', m w <> Ok a w') -> within this X m post.
Proof. intros Hm w a w' _ H. by destruct (Hm _ _ _ H). Qed.

Lemma within_member this X name obj :
  refs_in X obj -> within this X (member name obj) (fun X' v => refs_in X' v).
Proof.
  intros Hobj w v w' Hf H. pose proof (member_Ok _ _ _ _ _ H) as ->.
  exists X. split; [by apply touches_refl|].
  unfold member in H. destruct Hf as [Hc _].
  destruct obj as [| |?|?| |?|l|?]; try done;
    try (destruct (builtin name); [done|]; by injection H as <-).
  destruct (heap w !! l) as [o|] eqn:Hl; [|done].
  destruct (o !! name) as [u|] eqn:Hname.
  - injection H as <-. destruct u; try done. simpl. by eapply Hc.
  - destruct (builtin name); [done|]. by injection H as <-.
Qed.

Lemma within_new_object this X :
  within this X new_object (fun X' v => refs_in X' v).
Proof.
  intros w v w' [Hc Hroot] [= <- <-]. exists (X ∪ {[fresh (dom (heap w))]}).
  split; [|simpl; set_solver].
  split; [set_solver|]. split; [|split; [|split; [|done]]].
  - intros l o name l' Hl Ho Hname. simpl in Ho.
    destruct (decide (fresh (dom (heap w)) = l)) as [<-|Hne].
    + rewrite lookup_insert_eq in Ho. injection Ho as <-. by rewrite lookup_empty in Hname.
    + rewrite lookup_insert_ne in Ho by done.
      assert (l ∈ X) by set_solver. apply elem_of_union_l. by eapply Hc.
  - intros l Hl Hnot. assert (l = fresh (dom (heap w))) as -> by set_solver.
    apply fresh_heap_None.
  - intros l Hl. simpl. apply lookup_insert_ne. set_solver.
Qed.

Lemma within_assign this X name obj v :
  refs_in X obj -> refs_in X v ->
  within this X (assign name obj v) (fun _ _ => True).
Proof.
  intros Hobj Hv w [] w' [Hc Hroot] (lp & o & -> & Hlp & _ & ->)%assign_Ok.
  exists X. split; [|done]. simpl in Hobj.
  split; [done|]. split; [|split; [done|split; [|done]]].
  - intros l o' name' l' Hl Ho Hname. simpl in Ho.
    destruct (decide (lp = l)) as [<-|Hne].
    + rewrite lookup_insert_eq in Ho. injection Ho as <-.
      destruct (decide (name = name')) as [<-|Hnn].
      * rewrite lookup_insert_eq in Hname. injection Hname as ->. done.
      * rewrite lookup_insert_ne in Hname by done. by eapply Hc.
    + rewrite lookup_insert_ne in Ho by done. by eapply Hc.
  - intros l Hl. simpl. apply lookup_insert_ne. set_solver.
Qed.

Lemma preserves_put_observerList_other this that ol :
  that <> this -> preserves (fun w => stores w !! that) (put_observerList this ol).
Proof.
  intros Hne w a w'. unfold put_observerList. destruct (stores w !! this); [|done].
  intros [= _ <-]. simpl. by rewrite lookup_insert_ne.
Qed.

Lemma preserves_put_observerList_data this ol :
  preserves (fun w => _data <$> (stores w !! this)) (put_observerList this ol).
Proof.
  intros w a w'. unfold put_observerList. destruct (stores w !! this) eqn:Hs; [|done].
  intros [= _ <-]. simpl. by rewrite lookup_insert_eq.
Qed.

Lemma preserves_put_observerList_id this ol :
  preserves (fun w => _id <$> (stores w !! this)) (put_observerList this ol).
Proof.
  intros w a w'. unfold put_observerList. destruct (stores w !! this) eqn:Hs; [|done].
  intros [= _ <-]. simpl. by rewrite lookup_insert_eq.
Qed.

#[local] Hint Resolve preserves_put_observerList_other preserves_put_observerList_data
  preserves_put_observerList_id : frame.

Lemma preserves_log_call {X} (proj : world -> X) c :
  (forall w cs, proj (with_calls cs w) = proj w) -> preserves proj (log_call c).
Proof. intros Hproj w a w' [= _ <-]. apply Hproj. Qed.

(** Steps that leave the heap alone stay within any footprint. *)
Lemma within_quiet {A} this X (m : M A) :
  preserves heap m ->
  (forall that, that <> this -> preserves (fun w => stores w !! that) m) ->
  preserves (fun w => _data <$> (stores w !! this)) m ->
  preserves (fun w => _id <$> (stores w !! this)) m ->
  within this X m (fun _ _ => True).
Proof.
  intros Hh Hst Hd Hi w a w' Hf H. exists X. split; [|done].
  apply touches_stores; eauto. intros that Hne. by apply (Hst that Hne _ _ _ H).
Qed.

Lemma within_set_observerList this X key l :
  within this X (set_observerList this key l) (fun _ _ => True).
Proof. apply within_quiet; [|intros that Hne| |]; unfold set_observerList; frame. Qed.

Lemma within_getObserverList this X key :
  within this X (getObserverList this key) (fun _ _ => True).
Proof.
  apply within_quiet; [|intros that Hne| |];
    unfold getObserverList, observerList_member, set_observerList; frame.
Qed.

Lemma within_observerList_member this X key :
  within this X (observerList_member this key) (fun _ _ => True).
Proof.
  apply within_quiet; [|intros that Hne| |]; unfold observerList_member; frame.
Qed.

Lemma within_getObserverIndex this X observer property :
  within this X (getObserverIndex this observer property) (fun _ _ => True).
Proof.
  apply within_quiet; [|intros that Hne| |]; apply preserves_getObserverIndex.
Qed.

Lemma within_log_call this X c : within this X (log_call c) (fun _ _ => True).
Proof. apply within_quiet; [|intros that Hne| |]; by apply preserves_log_call. Qed.

Lemma within_descend this X name obj :
  refs_in X obj -> within this X (descend name obj) (fun X' v => refs_in X' v).
Proof.
  intros Hobj. unfold descend.
  eapply within_bind; [by apply within_member|]. intros X1 v HX1 Hv. simpl in Hv.
  destruct (truthy v); [by apply within_ret|].
  eapply within_bind; [apply within_new_object|]. intros X2 o HX2 Ho. simpl in Ho.
  eapply within_bind.
  - apply within_assign; [|done]. eapply refs_in_mono; [|exact Hobj]. set_solver.
  - intros X3 [] HX3 _. apply within_ret. by eapply refs_in_mono.
Qed.

Lemma within_every this X lastIndex _path index _obj :
  refs_in X _obj ->
  within this X (every lastIndex _path index _obj) (fun X' v => refs_in X' v).
Proof.
  revert X index _obj. induction _path as [|name rest IH]; intros X index _obj Hobj; simpl.
  - by apply within_ret.
  - eapply within_bind; [by apply within_descend|]. intros X1 o HX1 Ho. simpl in Ho.
    destruct (index + 1 <? lastIndex); [by apply IH|by apply within_ret].
Qed.

Lemma within_getParentObject this X path :
  within this X (getParentObject this path) (fun X' v => refs_in X' v).
Proof.
  intros w a w' Hf H. unfold getParentObject, bind at 1, get_store in H.
  destruct (stores w !! this) as [s|] eqn:Hs; [|done].
  assert (refs_in X (VRef (_data s))) as Hroot by (destruct Hf as [_ Hr]; by apply Hr).
  destruct (has_separator path).
  - eapply within_every; eauto.
  - eapply (within_ret this X (VRef (_data s)) (fun X' v => refs_in X' v)); eauto.
Qed.

Lemma within_getConfigProperty this X path :
  within this X (getConfigProperty this path) (fun X' v => refs_in X' v).
Proof.
  unfold getConfigProperty. eapply within_bind; [apply within_getParentObject|].
  intros X1 parent HX1 Hparent. by apply within_member.
Qed.

Lemma within_setObserverIndex this X observer property index :
  refs_in X observer -> refs_in X index ->
  within this X (setObserverIndex this observer property index) (fun _ _ => True).
Proof.
  intros Hobs Hindex. unfold setObserverIndex.
  eapply within_bind.
  { apply (within_quiet this X (get_store this)); [|intros that Hne| |]; apply preserves_get_store. }
  intros X1 s HX1 _.
  eapply within_bind; [apply within_descend; by eapply refs_in_mono|].
  intros X2 bc HX2 Hbc. apply within_assign; [done|].
  eapply refs_in_mono; [|exact Hindex]. set_solver.
Qed.

Lemma within_observeConfig this X observer property handler :
  refs_in X observer ->
  within this X (observeConfig this observer property handler) (fun _ _ => True).
Proof.
  intros Hobs. unfold observeConfig.
  eapply within_bind; [apply within_getObserverList|]. intros X1 _list HX1 _.
  eapply within_bind; [apply within_getObserverIndex|]. intros X2 _index HX2 _.
  destruct (isNaN _index) as [[]|].
  - eapply within_bind; [apply within_set_observerList|]. intros X3 [] HX3 _.
    apply within_setObserverIndex; [|done]. eapply refs_in_mono; [|exact Hobs]. set_solver.
  - by apply within_ret.
  - by apply within_fail.
Qed.

Lemma within_unobserveConfig this X observer property :
  refs_in X observer ->
  within this X (unobserveConfig this observer property) (fun _ _ => True).
Proof.
  intros Hobs. unfold unobserveConfig.
  eapply within_bind; [apply within_getObserverList|]. intros X1 _list HX1 _.
  eapply within_bind; [apply within_getObserverIndex|]. intros X2 _index HX2 _.
  destruct (isNaN _index) as [[]|].
  - by apply within_ret.
  - eapply within_bind; [apply within_set_observerList|]. intros X3 [] HX3 _.
    apply within_setObserverIndex; [|done]. eapply refs_in_mono; [|exact Hobs]. set_solver.
  - by apply within_fail.
Qed.

Section Footprint.

Variable this : nat.
Variable X0 : gset loc.
Variable invoke : nat -> fid -> string -> value -> M unit.

Hypothesis invoke_within :
  forall depth f property v X,
    X0 ⊆ X -> refs_in X v ->
    within this X (invoke depth f property v) (fun _ _ => True).

Lemma within_call_handler X depth handler property v :
  X0 ⊆ X -> refs_in X v ->
  within this X (call_handler invoke depth handler property v) (fun _ _ => True).
Proof.
  intros HX Hv. destruct handler; try (by apply within_fail). simpl.
  eapply within_bind; [apply within_log_call|]. intros X1 [] HX1 _.
  apply invoke_within; [set_solver|]. by eapply refs_in_mono.
Qed.

Lemma within_while_calls X depth _list i property v :
  X0 ⊆ X -> refs_in X v ->
  within this X (while_calls invoke depth _list i property v) (fun _ _ => True).
Proof.
  revert X. induction i as [|i IH]; intros X HX Hv; simpl.
  - by apply within_ret.
  - eapply within_bind; [by apply within_call_handler|]. intros X1 [] HX1 _.
    apply IH; [set_solver|]. by eapply refs_in_mono.
Qed.

Lemma within_notify X depth property v :
  X0 ⊆ X -> refs_in X v ->
  within this X (notify this invoke depth property v) (fun _ _ => True).
Proof.
  intros HX Hv. unfold notify.
  eapply within_bind; [apply within_observerList_member|]. intros X1 found HX1 _.
  destruct found; [|by apply within_ret].
  eapply within_bind; [apply within_getObserverList|]. intros X2 _list HX2 _.
  apply within_while_calls; [set_solver|]. eapply refs_in_mono; [|exact Hv]. set_solver.
Qed.

Lemma within_setConfigProperty X depth property v :
  X0 ⊆ X -> refs_in X v ->
  within this X (setConfigProperty this invoke depth property v) (fun _ _ => True).
Proof.
  intros HX Hv. unfold setConfigProperty.
  eapply within_bind; [apply within_getParentObject|]. intros X1 parent HX1 Hparent.
  eapply within_bind; [apply within_assign; [done|by eapply refs_in_mono]|].
  intros X2 [] HX2 _. apply within_notify; [set_solver|].
  eapply refs_in_mono; [|exact Hv]. set_solver.
Qed.

Lemma within_run_cmd X depth c :
  X0 ⊆ X -> cmd_in this X c ->
  within this X (run_cmd invoke depth c) (fun X' v => refs_in X' v).
Proof.
  intros HX [Ha Hc]. destruct c; simpl in Ha, Hc; subst; simpl.
  - eapply within_bind; [by apply within_setConfigProperty|]. intros. by apply within_ret.
  - apply within_getConfigProperty.
  - eapply within_bind; [by apply within_observeConfig|]. intros. by apply within_ret.
  - eapply within_bind; [by apply within_unobserveConfig|]. intros. by apply within_ret.
Qed.

Lemma within_run X depth p :
  X0 ⊆ X -> prog_in this X p ->
  within this X (run invoke depth p) (fun _ _ => True).
Proof.
  revert X. induction p as [|c k IH]; intros X HX; simpl.
  - intros _. by apply within_ret.
  - intros [Hc Hk]. eapply within_bind; [by apply within_run_cmd|].
    intros X1 v HX1 Hv. apply IH; [set_solver|]. by apply Hk.
Qed.

End Footprint.

Lemma within_invoke code this X0 fuel :
  (forall f property v X, X0 ⊆ X -> refs_in X v -> prog_in this X (code f property v)) ->
  forall depth f property v X,
    X0 ⊆ X -> refs_in X v ->
    within this X (invoke code fuel depth f property v) (fun _ _ => True).
Proof.
  intros Hcode. induction fuel as [|fuel IH]; intros depth f property v X HX Hv; simpl.
  - by apply within_fail.
  - apply (within_run this X0 _ IH); [done|]. by apply Hcode.
Qed.




(** * Further properties of the code *)

(** ** Paths: [getPropertyName] and the segments of [getParentObject] *)

Lemma split_segments_no_separator path :
  Forall (fun segment => has_separator segment = false) (split path).
Proof.
  induction path as [|c rest IH]; simpl; [by repeat constructor|].
  destruct (Ascii.eqb c ".") eqn:Hc; [by constructor|].
  destruct (split rest) as [|seg segs].
  - repeat constructor. simpl. by rewrite Hc.
  - apply Forall_cons in IH as [Hseg Hsegs]. constructor; [|done]. simpl. by rewrite Hc.
Qed.

Lemma concat_split path : String.concat "." (split path) = path.
Proof.
  induction path as [|c rest IH]; [done|]. simpl.
  destruct (Ascii.eqb_spec c ".") as [->|Hc].
  - pose proof (split_nonempty rest) as Hne.
    destruct (split rest) as [|seg segs]; [done|]. simpl in *. by rewrite IH.
  - destruct (split rest) as [|seg segs]; simpl in *.
    + by rewrite <- IH.
    + destruct segs; simpl in *; by rewrite <- IH.
Qed.


(** ** Reads are idempotent *)

(** A read that returns normally has created what it had to create: the same
    read made again returns the same value and changes nothing. *)
Theorem read_again_changes_nothing this path w v w' :
  getConfigProperty this path w = Ok v w' ->
  getConfigProperty this path w' = Ok v w'.
Proof.
  intros H.
  destruct (stores w !! this) as [s|] eqn:Hs.
  2:{ unfold getConfigProperty, getParentObject, bind, get_store in H. by rewrite Hs in H. }
  rewrite (getConfigProperty_unfold _ _ _ _ Hs) in H.
  apply bind_Ok in H as (parent & w1 & Hd & Hm).
  pose proof (member_Ok _ _ _ _ _ Hm) as ->.
  apply descend_all_post in Hd as (Hres & _ & Hst & _).
  assert (stores w1 !! this = Some s) as Hs1 by (by rewrite Hst).
  rewrite (getConfigProperty_unfold _ _ _ _ Hs1).
  by rewrite (bind_eq_Ok _ _ _ _ _ (descend_all_resolved _ _ _ _ Hres)).
Qed.

Lemma read_again_changes_nothing_witness :
  let w := module_loaded "ID" in
  let w' := World {[ 1%positive := {[ "a" := VRef 2%positive ]}; 2%positive := ∅ ]}
                  {[ global := Store 1%positive ∅ "ID" ]} [] in
  getConfigProperty global "a.b" w = Ok VUndef w' /\
  getConfigProperty global "a.b" w' = Ok VUndef w'.
Proof.
  assert (getConfigProperty global "a.b" (module_loaded "ID")
          = Ok VUndef
              (World {[ 1%positive := {[ "a" := VRef 2%positive ]}; 2%positive := ∅ ]}
                     {[ global := Store 1%positive ∅ "ID" ]} [])) as H
    by (vm_compute; reflexivity).
  split; [exact H|]. exact (read_again_changes_nothing _ _ _ _ _ H).
Defined.

(** ** Writes that create their way *)

Lemma builtin_has_no_separator name : builtin name = true -> has_separator name = false.
Proof.
  unfold builtin. simpl. intros H.
  repeat (apply orb_prop in H as [->%String.eqb_eq|H]; [reflexivity|]).
  discriminate.
Qed.

Lemma ordinary_not_builtin path : ordinary path = true -> builtin path = false.
Proof.
  intros Hord. destruct (has_separator path) eqn:Hsep.
  - destruct (builtin path) eqn:Hb; [|done].
    apply builtin_has_no_separator in Hb. congruence.
  - unfold ordinary in Hord. rewrite (split_no_separator _ Hsep) in Hord. simpl in Hord.
    rewrite andb_true_r in Hord. by apply negb_true_iff.
Qed.

Lemma gap_not_resolved h names obj : gap h names obj = true -> resolve h names obj = None.
Proof.
  revert obj. induction names as [|name rest IH]; intros obj; simpl; [done|].
  destruct obj as [| |?|?| |?|l|?]; try done. simpl.
  destruct (h !! l) as [o|]; [|done]. simpl.
  destruct (o !! name) as [v|]; [|done]. destruct (truthy v); [apply IH|done].
Qed.

(** The write of this section, in the terms of the section on writes: a
    write that returns normally, with no handler to run and no member of the
    way there overwritten, is read back. *)
Lemma written_value_is_read code fuel this path v w s w' :
  stores w !! this = Some s ->
  default [] (_observerList s !! path) = [] ->
  (forall parent,
     resolve (heap w) (intermediates path) (VRef (_data s)) = Some parent ->
     (parent, final_segment path) ∉ links (heap w) (intermediates path) (VRef (_data s))) ->
  exec code fuel (SetConfigProperty this path v) w = Ok VUndef w' ->
  exec code fuel (GetConfigProperty this path) w' = Ok v w'.
Proof.
  intros Hs Hnone Hacyclic Hset. unfold exec, run_cmd in *.
  apply bind_Ok in Hset as ([] & w3 & Hset & [= <-]).
  unfold setConfigProperty in Hset. rewrite getPropertyName_final in Hset.
  apply bind_Ok in Hset as (parent & w1 & Hp & Hset).
  apply bind_Ok in Hset as ([] & w2 & Hassign & Hnotify).
  rewrite (getParentObject_descend_all _ _ _ _ Hs) in Hp.
  pose proof (descend_all_post _ _ _ _ _ Hp) as (Hres1 & _ & Hst1 & _).
  apply assign_Ok in Hassign as (lp & o & -> & Hlp & Hb & ->).
  assert (stores (with_heap (<[lp := <[final_segment path := v]> o]> (heap w1)) w1) !! this = Some s) as Hs2.
  { simpl. by rewrite Hst1. }
  pose proof (notify_nobody _ _ _ _ _ _ _ Hs2 Hnone _ Hnotify) as ->.
  assert ((VRef lp, final_segment path) ∉ links (heap w1) (intermediates path) (VRef (_data s))) as Hnotin.
  { apply descend_all_cases in Hp as [[Hres ->]|(l & [= ->] & _ & Hcells)].
    - by apply Hacyclic.
    - intros Hin. by apply (Hcells _ Hin). }
  pose proof (resolve_insert _ _ _ _ v _ _ _ Hlp Hnotin Hres1) as Hres2.
  rewrite (getConfigProperty_unfold _ _ _ _ Hs2).
  erewrite (bind_eq_Ok _ _ _ (VRef lp)).
  - apply member_own. simpl. rewrite lookup_insert_eq. simpl. by rewrite lookup_insert_eq.
  - by apply descend_all_resolved.
Qed.

(** Where the tree below the root is empty, or the way to the parent has a
    missing or falsy segment below a mapping, a write to a path of ordinary
    segment names that has no handler returns normally, having created the
    mappings on the way, and the read that follows returns the value
    written. *)
Theorem write_creates_its_way_and_is_read_back code fuel this path v w s :
  stores w !! this = Some s ->
  ordinary path = true ->
  default [] (_observerList s !! path) = [] ->
  heap w !! _data s = Some ∅ \/
    gap (heap w) (intermediates path) (VRef (_data s)) = true ->
  exists w',
    exec code fuel (SetConfigProperty this path v) w = Ok VUndef w' /\
    is_Some (resolve (heap w') (intermediates path) (VRef (_data s))) /\
    exec code fuel (GetConfigProperty this path) w' = Ok v w'.
Proof.
  intros Hs Hord Hnone Hcreate.
  pose proof (ordinary_segments _ Hord) as [Hinter Hfinal].
  assert (exists l' w1,
            descend_all (intermediates path) (VRef (_data s)) w = Ok (VRef l') w1 /\
            heap w1 !! l' = Some ∅) as (l' & w1 & Hd & Hl').
  { destruct Hcreate as [Hroot|Hgap];
      [by apply descend_all_creates|by apply descend_all_gap]. }
  pose proof (descend_all_post _ _ _ _ _ Hd) as (Hres1 & _ & Hst1 & _).
  set (w' := with_heap (<[l' := <[final_segment path := v]> ∅]> (heap w1)) w1).
  assert (exec code fuel (SetConfigProperty this path v) w = Ok VUndef w') as Hset.
  { unfold exec, run_cmd, setConfigProperty. rewrite getPropertyName_final.
    erewrite bind_eq_Ok; [reflexivity|].
    rewrite (bind_eq_Ok _ _ _ (VRef l') w1) by (by rewrite (getParentObject_descend_all _ _ _ _ Hs)).
    rewrite (bind_eq_Ok _ _ _ tt w') by (unfold assign; by rewrite Hfinal, Hl').
    unfold notify, observerList_member, getObserverList, observerList_member, bind, get_store, ret.
    assert (stores w' !! this = Some s) as -> by (simpl; by rewrite Hst1).
    destruct (_observerList s !! path) as [l|] eqn:Hl.
    - simpl in Hnone. subst l. assert (stores w' !! this = Some s) as -> by (simpl; by rewrite Hst1).
      by rewrite Hl.
    - by rewrite (ordinary_not_builtin _ Hord). }
  exists w'. split; [done|].
  assert (forall parent,
     resolve (heap w) (intermediates path) (VRef (_data s)) = Some parent ->
     (parent, final_segment path) ∉ links (heap w) (intermediates path) (VRef (_data s))) as Hacyclic.
  { destruct Hcreate as [Hroot|Hgap].
    - destruct (intermediates path) as [|name rest]; simpl.
      + intros parent _. apply not_elem_of_nil.
      + rewrite Hroot. simpl. by rewrite lookup_empty.
    - by rewrite (gap_not_resolved _ _ _ Hgap). }
  pose proof (written_value_is_read _ _ _ _ _ _ _ _ Hs Hnone Hacyclic Hset) as Hget.
  split; [|done].
  unfold exec, run_cmd in Hget.
  assert (stores w' !! this = Some s) as Hs' by (simpl; by rewrite Hst1).
  rewrite (getConfigProperty_unfold _ _ _ _ Hs') in Hget.
  apply bind_Ok in Hget as (parent & w2 & Hd2 & Hm).
  apply descend_all_post in Hd2 as (Hres2 & _). 
  pose proof (member_Ok _ _ _ _ _ Hm) as <-. by rewrite Hres2.
Qed.

Lemma write_creates_its_way_and_is_read_back_witness :
  let w := module_loaded "ID" in
  let s := Store 1%positive ∅ "ID" in
  stores w !! global = Some s /\
  ordinary "hello.world" = true /\
  heap w !! _data s = Some ∅ /\
  exists w',
    exec idle 0 (SetConfigProperty global "hello.world" (VStr "hi")) w = Ok VUndef w' /\
    is_Some (resolve (heap w') (intermediates "hello.world") (VRef (_data s))) /\
    exec idle 0 (GetConfigProperty global "hello.world") w' = Ok (VStr "hi") w'.
Proof.
  split; [reflexivity|]. split; [reflexivity|]. split; [reflexivity|].
  exact (write_creates_its_way_and_is_read_back idle 0 global "hello.world" (VStr "hi")
           (module_loaded "ID") (Store 1%positive ∅ "ID")
           eq_refl eq_refl eq_refl (or_introl eq_refl)).
Defined.

(** ** Which handlers a write calls *)



(** ** Unregistering without a registration *)

Lemma unobserveConfig_without_index this observer property w s _list index :
  stores w !! this = Some s ->
  _observerList s !! property = Some _list ->
  getObserverIndex this observer property w = Ok index w ->
  isNaN index = Some true ->
  unobserveConfig this observer property w = Ok tt w.
Proof.
  intros Hs Hlist Hindex Hnan. unfold unobserveConfig.
  assert (getObserverList this property w = Ok _list w) as Hl.
  { unfold getObserverList, observerList_member, bind, get_store. by rewrite Hs, Hlist. }
  by rewrite (bind_eq_Ok _ _ _ _ _ Hl), (bind_eq_Ok _ _ _ _ _ Hindex), Hnan.
Qed.

(** [unobserveConfig] for an observer that has no usable index for the
    path, because it never registered or has unregistered already, throws
    nothing and removes nothing.  Where the path has an array, the state
    stays as it is; where it has none, an empty array is created for it. *)
Theorem unobserve_unregistered_removes_nothing this observer property w s index :
  stores w !! this = Some s ->
  builtin property = false ->
  getObserverIndex this observer property w = Ok index w ->
  isNaN index = Some true ->
  (is_Some (_observerList s !! property) ->
     unobserveConfig this observer property w = Ok tt w) /\
  (_observerList s !! property = None ->
     unobserveConfig this observer property w
     = Ok tt (with_stores
                (<[this := Store (_data s) (<[property := []]> (_observerList s)) (_id s)]>
                   (stores w)) w)).
Proof.
  intros Hs Hb Hindex Hnan. split.
  - intros [_list Hlist]. by eapply unobserveConfig_without_index.
  - intros Hnone.
    set (s1 := Store (_data s) (<[property := []]> (_observerList s)) (_id s)).
    set (w1 := with_stores (<[this := s1]> (stores w)) w).
    assert (getObserverList this property w = Ok [] w1) as Hl.
    { unfold getObserverList, observerList_member, set_observerList, put_observerList,
        bind, get_store, ret. rewrite Hs, Hnone, Hb. rewrite Hs. simpl. by rewrite Hs. }
    assert (stores w1 !! this = Some s1) as Hs1 by apply lookup_insert_eq.
    pose proof (proj2 (getObserverIndex_heap _ _ _ _ _ _ Hindex) s w1 s1 Hs Hs1 eq_refl eq_refl)
      as Hindex1.
    unfold unobserveConfig.
    by rewrite (bind_eq_Ok _ _ _ _ _ Hl), (bind_eq_Ok _ _ _ _ _ Hindex1), Hnan.
Qed.

Lemma unobserve_unregistered_removes_nothing_witness :
  let observer := VRef 2%positive in
  let s := Store 1%positive {[ "theme" := [VFun 1] ]} "ID" in
  let w := World {[ 1%positive := ∅; 2%positive := ∅ ]} {[ global := s ]} [] in
  getObserverIndex global observer "theme" w = Ok VUndef w /\
  unobserveConfig global observer "theme" w = Ok tt w /\
  unobserveConfig global observer "font" w
  = Ok tt (World {[ 1%positive := ∅; 2%positive := ∅ ]}
             {[ global := Store 1%positive {[ "theme" := [VFun 1]; "font" := [] ]} "ID" ]} []).
Proof.
  intros observer s w.
  assert (getObserverIndex global observer "theme" w = Ok VUndef w) as Hindex
    by (vm_compute; reflexivity).
  split; [exact Hindex|]. split.
  - exact (proj1 (unobserve_unregistered_removes_nothing global observer "theme" w s VUndef
                    eq_refl eq_refl Hindex eq_refl) (ex_intro _ [VFun 1] eq_refl)).
  - assert (getObserverIndex global observer "font" w = Ok VUndef w) as Hfont
      by (vm_compute; reflexivity).
    rewrite (proj2 (unobserve_unregistered_removes_nothing global observer "font" w s VUndef
                      eq_refl eq_refl Hfont eq_refl) eq_refl).
    vm_compute. reflexivity.
Defined.

(** After [unobserveConfig] has removed a handler by the number recorded for
    the observer, the observer's index reads NaN and the same call made
    again changes nothing. *)
Theorem unobserve_twice_is_unobserve_once this observer property w s _list i :
  stores w !! this = Some s ->
  _observerList s !! property = Some _list ->
  builtin property = false ->
  getObserverIndex this observer property w = Ok (VNum (Z.of_nat i)) w ->
  exists w1 s1,
    unobserveConfig this observer property w = Ok tt w1 /\
    stores w1 !! this = Some s1 /\
    _observerList s1 !! property = Some (delete i _list) /\
    getObserverIndex this observer property w1 = Ok VNaN w1 /\
    unobserveConfig this observer property w1 = Ok tt w1.
Proof.
  intros Hs Hlist Hb Hindex.
  pose proof (getObserverIndex_number _ _ _ _ _ _ Hs Hindex)
    as (lo & oo & lb & ob & -> & Hlo & Hoo & Hlb & Hob).
  pose proof (unobserveConfig_recorded _ _ _ _ _ _ _ _ _ _ _
                Hs Hlist Hb eq_refl Hlo Hoo Hlb Hob) as Hun.
  set (s1 := Store (_data s) (<[property := delete i _list]> (_observerList s)) (_id s)) in *.
  set (w1 := World (<[lb := <[property := VNaN]> ob]> (heap w))
                   (<[this := s1]> (stores w)) (calls w)) in *.
  assert (stores w1 !! this = Some s1) as Hs1 by apply lookup_insert_eq.
  assert (_observerList s1 !! property = Some (delete i _list)) as Hlist1
    by apply lookup_insert_eq.
  assert (getObserverIndex this (VRef lo) property w1 = Ok VNaN w1) as Hindex1.
  { apply (getObserverIndex_recorded _ _ _ _ _ _ Hs1).
    by apply recorded_invalidated with (oo := oo) (n := Z.of_nat i). }
  exists w1, s1. repeat split; try done.
  by eapply unobserveConfig_without_index.
Qed.

Lemma unobserve_twice_is_unobserve_once_witness :
  let observer := VRef 2%positive in
  let s := Store 1%positive {[ "theme" := [VFun 1] ]} "ID" in
  let w := World {[ 1%positive := ∅;
                    2%positive := {[ "bcID" := VRef 3%positive ]};
                    3%positive := {[ "theme" := VNum 0 ]} ]}
                 {[ global := s ]} [] in
  getObserverIndex global observer "theme" w = Ok (VNum 0) w /\
  exists w1 s1,
    unobserveConfig global observer "theme" w = Ok tt w1 /\
    stores w1 !! global = Some s1 /\
    _observerList s1 !! "theme" = Some [] /\
    getObserverIndex global observer "theme" w1 = Ok VNaN w1 /\
    unobserveConfig global observer "theme" w1 = Ok tt w1.
Proof.
  intros observer s w.
  assert (getObserverIndex global observer "theme" w = Ok (VNum (Z.of_nat 0)) w) as Hindex
    by (vm_compute; reflexivity).
  split; [exact Hindex|].
  exact (unobserve_twice_is_unobserve_once global observer "theme" w s [VFun 1] 0
           eq_refl eq_refl eq_refl Hindex).
Defined.

(** ** Registering and unregistering *)

(** What [observeConfig] does for an object that carries nothing yet under
    the member [bc] of this store. *)
Lemma observeConfig_new_observer this lo property handler w s oo :
  stores w !! this = Some s ->
  builtin property = false ->
  heap w !! lo = Some oo ->
  oo !! ("bc" +:+ _id s) = None ->
  let _list := default [] (_observerList s !! property) in
  let lf := fresh (dom (heap w)) in
  observeConfig this (VRef lo) property handler w
  = Ok tt (World (<[lf := {[ property := VNum (Z.of_nat (length _list)) ]}]>
                    (<[lo := <[("bc" +:+ _id s) := VRef lf]> oo]>
                       (<[lf := ∅]> (heap w))))
                 (<[this := Store (_data s)
                              (<[property := _list ++ [handler]]> (_observerList s))
                              (_id s)]> (stores w))
                 (calls w)).
Proof.
  intros Hs Hb Hlo Hoo _list lf.
  destruct (getObserverList_total _ _ _ _ Hs Hb) as (l0 & w0 & Hl & _ & _).
  pose proof (getObserverList_Ok _ _ _ _ _ Hl) as (s' & Hs' & -> & Hh0 & Hc0 & Hst0).
  assert (s' = s) as -> by congruence. fold _list in Hl, Hst0.
  set (s0 := Store (_data s) (<[property := _list]> (_observerList s)) (_id s)) in *.
  assert (stores w0 !! this = Some s0) as Hs0 by (by rewrite Hst0, lookup_insert_eq).
  subst lf.
  assert (fresh (dom (heap w)) <> lo) as Hne.
  { intros Heq. rewrite <- Heq in Hlo. by rewrite fresh_heap_None in Hlo. }
  assert (getObserverIndex this (VRef lo) property w0 = Ok VUndef w0) as Hindex.
  { unfold getObserverIndex, bind, get_store, member. rewrite Hs0, Hh0, Hlo. simpl.
    rewrite Hoo, ?builtin_bc. simpl. by rewrite ?Hb. }
  unfold observeConfig.
  rewrite (bind_eq_Ok _ _ _ _ _ Hl), (bind_eq_Ok _ _ _ _ _ Hindex).
  change (isNaN VUndef) with (Some true). cbv iota. cbv zeta.
  unfold set_observerList, put_observerList, setObserverIndex, bind, get_store.
  rewrite Hs0. simpl. rewrite Hs0. simpl. rewrite lookup_insert_eq. simpl.
  unfold descend, bind, member, new_object, assign, ret. simpl.
  rewrite Hh0, Hlo. simpl. rewrite Hoo, ?builtin_bc. simpl.
  rewrite ?builtin_bc, ?Hh0. rewrite lookup_insert_ne, Hlo by done.
  rewrite Hb. simpl. rewrite lookup_insert_ne by done. rewrite lookup_insert_eq.
  f_equal. unfold with_heap, with_stores. simpl. f_equal.
  - rewrite length_app. simpl. replace (Z.of_nat (length _list + 1) - 1)%Z
      with (Z.of_nat (length _list)) by lia. done.
  - rewrite Hst0, insert_insert_eq. unfold s0. simpl. by rewrite insert_insert_eq.
  - done.
Qed.

(** An object new to the store registers and unregisters: the first call
    appends its handler to the path's array and records the handler's
    position, the second takes exactly that handler out again, so that the
    array is what it was (created empty, if there was none) and the index
    reads NaN, ready for a new registration. *)
Theorem observe_then_unobserve_restores_array this lo property handler w s oo :
  stores w !! this = Some s ->
  builtin property = false ->
  heap w !! lo = Some oo ->
  oo !! ("bc" +:+ _id s) = None ->
  exists w1 s1,
    observeConfig this (VRef lo) property handler w = Ok tt w1 /\
    stores w1 !! this = Some s1 /\
    _observerList s1 !! property
    = Some (default [] (_observerList s !! property) ++ [handler]) /\
    getObserverIndex this (VRef lo) property w1
    = Ok (VNum (Z.of_nat (length (default [] (_observerList s !! property))))) w1 /\
    exists w2 s2,
      unobserveConfig this (VRef lo) property w1 = Ok tt w2 /\
      stores w2 !! this = Some s2 /\
      _observerList s2 !! property = Some (default [] (_observerList s !! property)) /\
      getObserverIndex this (VRef lo) property w2 = Ok VNaN w2.
Proof.
  intros Hs Hb Hlo Hoo.
  pose proof (observeConfig_new_observer this lo property handler w s oo Hs Hb Hlo Hoo) as Hobs.
  cbv zeta in Hobs.
  set (_list := default [] (_observerList s !! property)) in *.
  set (lf := fresh (dom (heap w))) in *.
  set (s1 := Store (_data s) (<[property := _list ++ [handler]]> (_observerList s)) (_id s)) in *.
  set (h1 := <[lf := {[ property := VNum (Z.of_nat (length _list)) ]}]>
               (<[lo := <[("bc" +:+ _id s) := VRef lf]> oo]> (<[lf := ∅]> (heap w)))) in *.
  set (w1 := World h1 (<[this := s1]> (stores w)) (calls w)) in *.
  assert (lf <> lo) as Hne.
  { intros Heq. unfold lf in Heq. rewrite <- Heq in Hlo. by rewrite fresh_heap_None in Hlo. }
  assert (stores w1 !! this = Some s1) as Hs1 by apply lookup_insert_eq.
  assert (_observerList s1 !! property = Some (_list ++ [handler])) as Hlist1
    by apply lookup_insert_eq.
  assert (heap w1 !! lo = Some (<[("bc" +:+ _id s) := VRef lf]> oo)) as Hlo1.
  { simpl. unfold h1. rewrite lookup_insert_ne by done. apply lookup_insert_eq. }
  assert (heap w1 !! lf = Some {[ property := VNum (Z.of_nat (length _list)) ]}) as Hlf1
    by apply lookup_insert_eq.
  assert (recorded (heap w1) ("bc" +:+ _id s1) (VRef lo) property
            (VNum (Z.of_nat (length _list)))) as Hrec.
  { eexists lo, _, lf, _. repeat split; [exact Hlo1|apply lookup_insert_eq|exact Hlf1|
      apply lookup_singleton_eq]. }
  exists w1, s1. repeat split; try done.
  { by apply (getObserverIndex_recorded _ _ _ _ _ _ Hs1). }
  pose proof (unobserveConfig_recorded this (VRef lo) property w1 s1 (_list ++ [handler])
                (length _list) lo _ lf _ Hs1 Hlist1 Hb eq_refl Hlo1
                (lookup_insert_eq _ _ _) Hlf1 (lookup_singleton_eq _ _)) as Hun.
  rewrite delete_middle, app_nil_r in Hun.
  eexists _, _. split; [exact Hun|]. split; [apply lookup_insert_eq|].
  split; [apply lookup_insert_eq|].
  eapply getObserverIndex_recorded; [apply lookup_insert_eq|].
  by eapply recorded_invalidated; [exact Hlo1|apply lookup_insert_eq|exact Hlf1|
    apply lookup_singleton_eq].
Qed.

Lemma observe_then_unobserve_restores_array_witness :
  let s := Store 1%positive {[ "theme" := [VFun 1] ]} "ID" in
  let w := World {[ 1%positive := ∅; 2%positive := ∅ ]} {[ global := s ]} [] in
  exists w1 s1 w2 s2,
    observeConfig global (VRef 2%positive) "theme" (VFun 2) w = Ok tt w1 /\
    stores w1 !! global = Some s1 /\
    _observerList s1 !! "theme" = Some [VFun 1; VFun 2] /\
    unobserveConfig global (VRef 2%positive) "theme" w1 = Ok tt w2 /\
    stores w2 !! global = Some s2 /\
    _observerList s2 !! "theme" = Some [VFun 1].
Proof.
  intros s w.
  destruct (observe_then_unobserve_restores_array global 2%positive "theme" (VFun 2) w s ∅
              eq_refl eq_refl eq_refl eq_refl)
    as (w1 & s1 & Hobs & Hs1 & Hl1 & _ & w2 & s2 & Hun & Hs2 & Hl2 & _).
  exists w1, s1, w2, s2. repeat split; assumption.
Defined.

(** ** Arguments of the wrong kind *)

(** [observeConfig] checks neither argument.  With a number or a boolean for
    observer it appends the handler to the path's array and then throws a
    TypeError, from the attempt to create the index map on the primitive;
    the handler stays registered, with no index by which to remove it.  With
    [undefined] or [null] for observer it throws before it appends. *)
Theorem observe_by_non_object_throws this observer property handler w s :
  stores w !! this = Some s ->
  builtin property = false ->
  let _list := default [] (_observerList s !! property) in
  (number_or_boolean observer = true ->
     observeConfig this observer property handler w
     = TypeError
         (World (<[fresh (dom (heap w)) := ∅]> (heap w))
                (<[this := Store (_data s)
                             (<[property := _list ++ [handler]]> (_observerList s))
                             (_id s)]> (stores w))
                (calls w))) /\
  (observer = VUndef \/ observer = VNull ->
     observeConfig this observer property handler w
     = TypeError
         (World (heap w)
                (<[this := Store (_data s)
                             (<[property := _list]> (_observerList s))
                             (_id s)]> (stores w))
                (calls w))).
Proof.
  intros Hs Hb _list.
  destruct (getObserverList_total _ _ _ _ Hs Hb) as (l0 & w0 & Hl & _ & _).
  pose proof (getObserverList_Ok _ _ _ _ _ Hl) as (s' & Hs' & -> & Hh0 & Hc0 & Hst0).
  assert (s' = s) as -> by congruence. fold _list in Hl, Hst0.
  set (s0 := Store (_data s) (<[property := _list]> (_observerList s)) (_id s)) in *.
  assert (stores w0 !! this = Some s0) as Hs0 by (by rewrite Hst0, lookup_insert_eq).
  assert (w0 = World (heap w) (<[this := s0]> (stores w)) (calls w)) as Hw0.
  { destruct w0. simpl in *. congruence. }
  unfold observeConfig. rewrite (bind_eq_Ok _ _ _ _ _ Hl). split.
  - intros Hobs.
    assert (getObserverIndex this observer property w0 = Ok VUndef w0) as Hindex.
    { unfold getObserverIndex, bind, get_store, member. rewrite Hs0.
      destruct observer; try done; simpl; by rewrite ?Hb. }
    rewrite (bind_eq_Ok _ _ _ _ _ Hindex).
    change (isNaN VUndef) with (Some true). cbv iota. cbv zeta.
    unfold set_observerList, put_observerList, setObserverIndex, bind, get_store.
    rewrite Hs0. simpl. rewrite Hs0. simpl. rewrite lookup_insert_eq. simpl.
    unfold descend, bind, member, new_object, assign, ret.
    destruct observer; try done; simpl; rewrite Hw0; simpl;
      unfold with_heap, with_stores; simpl;
      by rewrite insert_insert_eq, insert_insert_eq.
  - intros [-> | ->]; unfold getObserverIndex, bind, get_store, member;
      rewrite Hs0; by rewrite Hw0.
Qed.

Lemma observe_by_non_object_throws_witness :
  let s := Store 1%positive ∅ "ID" in
  let w := module_loaded "ID" in
  stores w !! global = Some s /\
  observeConfig global (VNum 5) "theme" (VFun 1) w
  = TypeError (World {[ 1%positive := ∅; 2%positive := ∅ ]}
                     {[ global := Store 1%positive {[ "theme" := [VFun 1] ]} "ID" ]} []) /\
  observeConfig global VNull "theme" (VFun 1) w
  = TypeError (World {[ 1%positive := ∅ ]}
                     {[ global := Store 1%positive {[ "theme" := [] ]} "ID" ]} []).
Proof.
  split; [reflexivity|].
  pose proof (observe_by_non_object_throws global (VNum 5) "theme" (VFun 1)
                (module_loaded "ID") (Store 1%positive ∅ "ID") eq_refl eq_refl) as [H1 _].
  pose proof (observe_by_non_object_throws global VNull "theme" (VFun 1)
                (module_loaded "ID") (Store 1%positive ∅ "ID") eq_refl eq_refl) as [_ H2].
  split.
  - rewrite (H1 eq_refl). vm_compute. reflexivity.
  - rewrite (H2 (or_intror eq_refl)). vm_compute. reflexivity.
Defined.

(** A handler that is no function is accepted when it is registered; a write
    to its path then stores the value and throws a TypeError when it comes to
    call the handler, the last one registered being the first one called.
    No handler is called. *)
Theorem write_throws_at_non_function_handler code fuel this property v w s
    _list handler lp o :
  stores w !! this = Some s ->
  _observerList s !! property = Some (_list ++ [handler]) ->
  not_callable handler = true ->
  resolve (heap w) (intermediates property) (VRef (_data s)) = Some (VRef lp) ->
  heap w !! lp = Some o ->
  builtin (final_segment property) = false ->
  exec code fuel (SetConfigProperty this property v) w
  = TypeError (with_heap (<[lp := <[final_segment property := v]> o]> (heap w)) w).
Proof.
  intros Hs Hlist Hh Hres Hlp Hb.
  set (w2 := with_heap (<[lp := <[final_segment property := v]> o]> (heap w)) w).
  assert (stores w2 !! this = Some s) as Hs2 by done.
  unfold exec, run_cmd, setConfigProperty. rewrite getPropertyName_final.
  unfold bind at 1.
  rewrite (bind_eq_Ok _ _ _ (VRef lp) w).
  2:{ rewrite (getParentObject_descend_all _ _ _ _ Hs). by apply descend_all_resolved. }
  rewrite (bind_eq_Ok _ _ _ tt w2) by (unfold assign; by rewrite Hb, Hlp).
  unfold notify, observerList_member, getObserverList, observerList_member, bind, get_store, ret.
  rewrite Hs2, Hlist, Hs2, Hlist. rewrite length_app. simpl.
  replace (length _list + 1) with (S (length _list)) by lia. simpl.
  rewrite lookup_app_r by lia. rewrite Nat.sub_diag. simpl.
  unfold bind. destruct handler; done.
Qed.

Lemma write_throws_at_non_function_handler_witness :
  let s := Store 1%positive {[ "theme" := [VFun 1; VNum 5] ]} "ID" in
  let w := World {[ 1%positive := ∅ ]} {[ global := s ]} [] in
  stores w !! global = Some s /\
  exec idle 1 (SetConfigProperty global "theme" (VStr "dark")) w
  = TypeError (World {[ 1%positive := {[ "theme" := VStr "dark" ]} ]} {[ global := s ]} []).
Proof.
  intros s w. split; [reflexivity|].
  rewrite (write_throws_at_non_function_handler idle 1 global "theme" (VStr "dark") w s
             [VFun 1] (VNum 5) 1%positive ∅ eq_refl eq_refl eq_refl eq_refl eq_refl eq_refl).
  vm_compute. reflexivity.
Defined.

(** ** Nothing is ever removed *)

Lemma grows_refl w : grows w w.
Proof. split; eauto 10. Qed.

Lemma grows_trans w1 w2 w3 : grows w1 w2 -> grows w2 w3 -> grows w1 w3.
Proof.
  intros [Hs12 Hh12] [Hs23 Hh23]. split.
  - intros this s Hs. destruct (Hs12 _ _ Hs) as (s2 & Hs2 & Hd2 & Hi2 & Hk2).
    destruct (Hs23 _ _ Hs2) as (s3 & Hs3 & Hd3 & Hi3 & Hk3).
    exists s3. repeat split; try congruence. eauto.
  - intros l o Hl. destruct (Hh12 _ _ Hl) as (o2 & Hl2 & Ho2).
    destruct (Hh23 _ _ Hl2) as (o3 & Hl3 & Ho3). exists o3. eauto.
Qed.

Lemma respects_ret {A} (a : A) : respects grows (ret a).
Proof. intros w a' w' [= _ <-]. apply grows_refl. Qed.

Lemma respects_bind {A B} (m : M A) (k : A -> M B) :
  respects grows m -> (forall a, respects grows (k a)) -> respects grows (bind m k).
Proof.
  intros Hm Hk w b w' (a & w1 & H1 & H2)%bind_Ok.
  eapply grows_trans; [by eapply Hm|by eapply Hk].
Qed.

Lemma respects_fail {A} (m : M A) :
  (forall w a w', m w <> Ok a w') -> respects grows m.
Proof. intros Hm w a w' H. by destruct (Hm _ _ _ H). Qed.

Lemma respects_unchanged {A} (m : M A) : preserves id m -> respects grows m.
Proof. intros Hm w a w' H. apply Hm in H. simpl in H. subst. apply grows_refl. Qed.

Lemma respects_member name obj : respects grows (member name obj).
Proof. apply respects_unchanged, preserves_member. Qed.

Lemma respects_get_store this : respects grows (get_store this).
Proof. apply respects_unchanged, preserves_get_store. Qed.

Lemma respects_getObserverIndex this observer property :
  respects grows (getObserverIndex this observer property).
Proof. apply respects_unchanged, preserves_getObserverIndex. Qed.

Lemma respects_new_object : respects grows new_object.
Proof.
  intros w a w' [= _ <-]. split; [eauto 10|]. intros l o Hl. exists o. split; [|done].
  simpl. rewrite lookup_insert_ne; [done|]. intros <-. by rewrite fresh_heap_None in Hl.
Qed.

Lemma respects_assign name obj v : respects grows (assign name obj v).
Proof.
  intros w [] w' (lp & o & -> & Hlp & _ & ->)%assign_Ok. split; [eauto 10|].
  intros l o' Hl. simpl. destruct (decide (lp = l)) as [<-|Hne].
  - rewrite lookup_insert_eq. eexists. split; [done|]. intros name' Hname.
    assert (o' = o) as -> by congruence.
    destruct (decide (name = name')) as [<-|Hnn].
    + by rewrite lookup_insert_eq.
    + by rewrite lookup_insert_ne.
  - rewrite lookup_insert_ne by done. eauto.
Qed.

Lemma respects_log_call c : respects grows (log_call c).
Proof. intros w a w' [= _ <-]. split; eauto 10. Qed.

Lemma respects_set_observerList this key l : respects grows (set_observerList this key l).
Proof.
  intros w [] w'. unfold set_observerList, put_observerList, bind, get_store.
  destruct (stores w !! this) as [s|] eqn:Hs; [|done]. simpl. rewrite Hs.
  intros [= <-]. split; [|eauto 10]. intros that s' Hs'. simpl.
  destruct (decide (this = that)) as [<-|Hne].
  - rewrite lookup_insert_eq. eexists. split; [done|].
    assert (s' = s) as -> by congruence. repeat split. intros key' Hkey. simpl.
    destruct (decide (key = key')) as [<-|Hkk].
    + by rewrite lookup_insert_eq.
    + by rewrite lookup_insert_ne.
  - rewrite lookup_insert_ne by done. eauto 10.
Qed.

Create HintDb grow.

#[local] Hint Resolve respects_ret respects_member respects_get_store
  respects_getObserverIndex respects_new_object respects_assign respects_log_call
  respects_set_observerList : grow.

(** Goes through binds and branches like [frame]; a branch that cannot
    return normally respects anything. *)
Ltac grow :=
  repeat first
    [ progress eauto with grow
    | apply respects_bind; [|intros ?]
    | apply respects_fail; intros ???; discriminate
    | match goal with
      | |- respects _ (if ?b then _ else _) => destruct b
      | |- respects _ (match ?x with _ => _ end) => destruct x
      end ].

Lemma respects_descend name obj : respects grows (descend name obj).
Proof. unfold descend. grow. Qed.

#[local] Hint Resolve respects_descend : grow.

Lemma respects_every lastIndex _path index _obj :
  respects grows (every lastIndex _path index _obj).
Proof.
  revert index _obj. induction _path as [|name rest IH]; intros index _obj; simpl; grow.
Qed.

#[local] Hint Resolve respects_every : grow.

Lemma respects_getParentObject this path : respects grows (getParentObject this path).
Proof. unfold getParentObject. grow. Qed.

Lemma respects_getObserverList this key : respects grows (getObserverList this key).
Proof. unfold getObserverList, observerList_member. grow. Qed.

Lemma respects_observerList_member this key : respects grows (observerList_member this key).
Proof. unfold observerList_member. grow. Qed.

Lemma respects_setObserverIndex this observer property index :
  respects grows (setObserverIndex this observer property index).
Proof. unfold setObserverIndex. grow. Qed.

#[local] Hint Resolve respects_getParentObject respects_getObserverList
  respects_observerList_member respects_setObserverIndex : grow.

Lemma respects_getConfigProperty this path : respects grows (getConfigProperty this path).
Proof. unfold getConfigProperty. grow. Qed.

Lemma respects_observeConfig this observer property handler :
  respects grows (observeConfig this observer property handler).
Proof. unfold observeConfig. grow. Qed.

Lemma respects_unobserveConfig this observer property :
  respects grows (unobserveConfig this observer property).
Proof. unfold unobserveConfig. grow. Qed.

#[local] Hint Resolve respects_getConfigProperty respects_observeConfig
  respects_unobserveConfig : grow.

Section Grows.

Variable invoke : nat -> fid -> string -> value -> M unit.

Hypothesis invoke_grows :
  forall depth f property v, respects grows (invoke depth f property v).

Lemma respects_call_handler depth handler property v :
  respects grows (call_handler invoke depth handler property v).
Proof. unfold call_handler, throw_TypeError, beyond. destruct handler; grow. Qed.

Lemma respects_while_calls depth _list i property v :
  respects grows (while_calls invoke depth _list i property v).
Proof.
  induction i as [|i IH]; simpl; [grow|].
  apply respects_bind; [apply respects_call_handler|done].
Qed.

Lemma respects_notify this depth property v :
  respects grows (notify this invoke depth property v).
Proof.
  unfold notify. apply respects_bind; [grow|]. intros [l|]; [|grow].
  apply respects_bind; [grow|]. intros. apply respects_while_calls.
Qed.

Lemma respects_setConfigProperty this depth property v :
  respects grows (setConfigProperty this invoke depth property v).
Proof.
  unfold setConfigProperty. apply respects_bind; [grow|]. intros parent.
  apply respects_bind; [grow|]. intros. apply respects_notify.
Qed.

Lemma respects_run_cmd depth c : respects grows (run_cmd invoke depth c).
Proof.
  destruct c; cbn [run_cmd].
  - apply respects_bind; [apply respects_setConfigProperty|intros; apply respects_ret].
  - apply respects_getConfigProperty.
  - apply respects_bind; [apply respects_observeConfig|intros; apply respects_ret].
  - apply respects_bind; [apply respects_unobserveConfig|intros; apply respects_ret].
Qed.

Lemma respects_run depth p : respects grows (run invoke depth p).
Proof.
  induction p as [|c k IH]; simpl; [grow|].
  apply respects_bind; [apply respects_run_cmd|done].
Qed.

End Grows.

Lemma respects_invoke code fuel depth f property v :
  respects grows (invoke code fuel depth f property v).
Proof.
  revert depth f property v. induction fuel as [|fuel IH]; intros depth f property v; simpl.
  - by intros w a w'.
  - by apply respects_run.
Qed.





(** ** The identifier of a store *)

Lemma lower_hex_upper c : lower_hex_digit c = true -> upper_hex_digit (upper c) = true.
Proof.
  unfold lower_hex_digit. simpl. intros H.
  repeat (apply orb_prop in H as [->%Ascii.eqb_eq|H]; [reflexivity|]).
  discriminate.
Qed.

Lemma of_pos_lower_hex :
  forall p rest,
    Forall (fun c => lower_hex_digit c = true) (list_ascii_of_string rest) ->
    Forall (fun c => lower_hex_digit c = true)
      (list_ascii_of_string (HexString.Raw.of_pos p rest)).
Proof.
  fix IH 1. intros p rest Hrest.
  do 4 try destruct p as [p|p|]; simpl; try apply IH; simpl;
    try (constructor; [reflexivity|assumption]).
Qed.

Lemma of_pos_length :
  forall p rest,
    String.length rest < String.length (HexString.Raw.of_pos p rest).
Proof.
  fix IH 1. intros p rest.
  do 4 try destruct p as [p|p|]; simpl;
    try (eapply Nat.lt_trans; [|apply IH]; simpl; lia); lia.
Qed.

Lemma length_list_ascii_of_string s : length (list_ascii_of_string s) = String.length s.
Proof. induction s; simpl; congruence. Qed.

Lemma toString16_lower_hex time :
  Forall (fun c => lower_hex_digit c = true) (toString16 time).
Proof.
  unfold toString16. destruct time as [|p].
  - by repeat constructor.
  - apply of_pos_lower_hex. constructor.
Qed.

Lemma toString16_length time : 1 <= length (toString16 time).
Proof.
  unfold toString16. rewrite length_list_ascii_of_string. destruct time as [|p]; [simpl; lia|].
  pose proof (of_pos_length p ""). simpl in *. lia.
Qed.

Lemma substr_alphabet_lower_hex k :
  Forall (fun c => lower_hex_digit c = true)
    (substr k 1 (list_ascii_of_string "abcdef1234567890")).
Proof.
  unfold substr. do 16 (destruct k as [|k]; [by repeat constructor|]). simpl.
  rewrite drop_nil. constructor.
Qed.

Lemma while_count_lower_hex random _count i _value :
  Forall (fun c => lower_hex_digit c = true) _value ->
  Forall (fun c => lower_hex_digit c = true) (while_count random _count i _value).
Proof.
  revert i _value. induction _count as [|n IH]; intros i _value Hv; simpl; [done|].
  apply IH, Forall_app. split; [done|apply substr_alphabet_lower_hex].
Qed.

Lemma while_count_digits random _count i _value :
  while_count random _count i _value
  = _value ++ concat (map (fun j => digit (random (i + j))) (seq 0 _count)).
Proof.
  revert i _value. induction _count as [|n IH]; intros i _value.
  - simpl. by rewrite app_nil_r.
  - cbn [while_count]. rewrite IH. rewrite <- app_assoc. f_equal.
    change (seq 0 (S n)) with (0 :: seq 1 n). cbn [map concat].
    rewrite Nat.add_0_r. f_equal. rewrite <- seq_shift, map_map. f_equal.
    apply map_ext. intros j. f_equal. f_equal. lia.
Qed.

Lemma digit_one k : k < 16 -> exists c, digit k = [c] /\
  position (upper c) (list_ascii_of_string "ABCDEF1234567890") = k.
Proof.
  intros Hk. do 16 (destruct k as [|k]; [by eexists|]). lia.
Qed.

Lemma string_of_list_ascii_inj l1 l2 :
  string_of_list_ascii l1 = string_of_list_ascii l2 -> l1 = l2.
Proof.
  intros H. apply (f_equal list_ascii_of_string) in H.
  by rewrite !list_ascii_of_string_of_list_ascii in H.
Qed.

Lemma while_count_length random :
  (forall i, i < 24 -> random i < 16) ->
  length (while_count random 24 0 []) = 24.
Proof.
  intros Hr. rewrite while_count_digits, app_nil_l.
  assert (forall n, n <= 24 ->
            length (concat (map (fun j => digit (random (0 + j))) (seq 0 n))) = n) as H.
  { induction n as [|n IH]; intros Hn; [done|].
    rewrite seq_S, map_app, concat_app, length_app, IH by lia. simpl.
    destruct (digit_one (random n) (Hr n ltac:(lia))) as (c & -> & _). simpl. lia. }
  by apply (H 24).
Qed.

(** The identifier is made of the digits 0 to 9 and the letters A to F.
    When every draw is below 16, as [Math.floor(Math.random() * 16)] is, it
    has 24 characters from the draws, with those of the clock between the
    20th and the 21st: the last 8 hexadecimal digits of the time, or all of
    them when there are fewer; 25 to 32 characters in all. *)
Theorem createRandomString_shape time random :
  (forall i, i < 24 -> random i < 16) ->
  forallb upper_hex_digit (list_ascii_of_string (createRandomString time random)) = true /\
  String.length (createRandomString time random)
  = 24 + Nat.min 8 (length (toString16 time)) /\
  25 <= String.length (createRandomString time random) <= 32.
Proof.
  intros Hr. unfold createRandomString. cbv zeta.
  rewrite list_ascii_of_string_of_list_ascii.
  assert (String.length
            (string_of_list_ascii
               (toUpperCase (slice_to 20 (while_count random 24 0 []) ++
                             substr_last 8 (toString16 time) ++
                             slice_from 20 (while_count random 24 0 []))))
          = 24 + Nat.min 8 (length (toString16 time))) as Hlen.
  { rewrite <- length_list_ascii_of_string, list_ascii_of_string_of_list_ascii.
    unfold toUpperCase, slice_to, slice_from, substr_last.
    rewrite length_map, !length_app, length_take, !length_drop, while_count_length by done.
    lia. }
  split; [|split; [exact Hlen|]].
  - apply forallb_forall. intros c Hc. unfold toUpperCase in Hc.
    apply in_map_iff in Hc as (c0 & <- & Hc0). apply lower_hex_upper.
    assert (Forall (fun c => lower_hex_digit c = true)
              (slice_to 20 (while_count random 24 0 []) ++
               substr_last 8 (toString16 time) ++
               slice_from 20 (while_count random 24 0 []))) as Hall.
    { pose proof (while_count_lower_hex random 24 0 [] ltac:(constructor)) as Hv.
      pose proof (toString16_lower_hex time) as Ht.
      unfold slice_to, slice_from, substr_last.
      apply Forall_app. split; [by apply Forall_take|].
      apply Forall_app. split; by apply Forall_drop. }
    rewrite Forall_forall in Hall. apply Hall. by apply list_elem_of_In.
  - rewrite Hlen. pose proof (toString16_length time). lia.
Qed.

Lemma createRandomString_shape_witness :
  let random := fun i => i mod 16 in
  (forall i, i < 24 -> random i < 16) /\
  createRandomString 1500000000000 random = "ABCDEF1234567890ABCD3EF79800EF12" /\
  forallb upper_hex_digit
    (list_ascii_of_string (createRandomString 1500000000000 random)) = true /\
  String.length (createRandomString 1500000000000 random) = 32.
Proof.
  intros random.
  assert (forall i, i < 24 -> random i < 16) as Hr.
  { intros i _. apply Nat.mod_upper_bound. lia. }
  split; [exact Hr|]. split; [vm_compute; reflexivity|].
  destruct (createRandomString_shape 1500000000000 random Hr) as (Hchars & Hlen & _).
  split; [exact Hchars|]. rewrite Hlen. vm_compute. reflexivity.
Defined.



(** ** A falsy value in the way *)

(** [||] takes a stored 0, [false], [null], empty string, NaN or
    [undefined] for a missing mapping.  A read of a path of ordinary segment
    names whose first segment holds such a value returns the absent marker,
    and leaves a new empty mapping in the place of that value. *)
Theorem read_replaces_falsy_intermediate this path w s o name rest v0 :
  stores w !! this = Some s ->
  ordinary path = true ->
  intermediates path = name :: rest ->
  heap w !! _data s = Some o ->
  o !! name = Some v0 ->
  truthy v0 = false ->
  exists w' o' l,
    getConfigProperty this path w = Ok VUndef w' /\
    heap w' !! _data s = Some o' /\
    o' !! name = Some (VRef l) /\
    heap w !! l = None.
Proof.
  intros Hs Hord Hinter Hroot Hname Hv0.
  pose proof (ordinary_segments _ Hord) as [Hall Hfinal]. rewrite Hinter in Hall.
  apply Forall_cons in Hall as [Hb Hrest].
  set (l := fresh (dom (heap w))).
  assert (l <> _data s) as Hne.
  { intros Heq. unfold l in Heq. rewrite <- Heq in Hroot. by rewrite fresh_heap_None in Hroot. }
  set (w1 := with_heap (<[_data s := <[name := VRef l]> o]> (<[l := ∅]> (heap w))) w).
  assert (descend name (VRef (_data s)) w = Ok (VRef l) w1) as Hd.
  { unfold descend, bind, member, new_object, assign, ret.
    rewrite Hroot, Hname, Hv0, Hb. simpl. fold l. by rewrite lookup_insert_ne, Hroot. }
  assert (heap w1 !! l = Some ∅) as Hl1.
  { simpl. rewrite lookup_insert_ne by done. apply lookup_insert_eq. }
  destruct (descend_all_creates rest l w1 Hl1 Hrest) as (l' & w' & Hrun & Hl').
  pose proof (descend_all_post _ _ _ _ _ Hrun) as (_ & Hk & _ & _).
  assert (own (heap w') (VRef (_data s)) name = Some (VRef l)) as Hown.
  { apply Hk; [|done]. simpl. rewrite lookup_insert_eq. simpl. apply lookup_insert_eq. }
  simpl in Hown. destruct (heap w' !! _data s) as [o'|] eqn:Hroot'; [|done].
  exists w', o', l. split; [|split; [done|split; [done|apply fresh_heap_None]]].
  rewrite (getConfigProperty_unfold _ _ _ _ Hs), Hinter. cbn [descend_all].
  rewrite (bind_eq_Ok _ _ _ (VRef l') w').
  - unfold member. by rewrite Hl', lookup_empty, Hfinal.
  - by rewrite (bind_eq_Ok _ _ _ _ _ Hd).
Qed.

Lemma read_replaces_falsy_intermediate_witness :
  let s := Store 1%positive ∅ "ID" in
  let w := World {[ 1%positive := {[ "count" := VNum 0 ]} ]} {[ global := s ]} [] in
  exec idle 0 (SetConfigProperty global "count" (VNum 0)) (module_loaded "ID") = Ok VUndef w /\
  getConfigProperty global "count.max" w
  = Ok VUndef (World {[ 1%positive := {[ "count" := VRef 2%positive ]}; 2%positive := ∅ ]}
                     {[ global := s ]} []) /\
  exists w' o' l,
    getConfigProperty global "count.max" w = Ok VUndef w' /\
    heap w' !! _data s = Some o' /\ o' !! "count" = Some (VRef l) /\ heap w !! l = None.
Proof.
  intros s w. split; [vm_compute; reflexivity|]. split; [vm_compute; reflexivity|].
  exact (read_replaces_falsy_intermediate global "count.max" w s {[ "count" := VNum 0 ]}
           "count" [] (VNum 0) eq_refl eq_refl eq_refl eq_refl eq_refl eq_refl).
Defined.

(** ** A write seen from the path of its parent *)

Lemma split_app_segment path name :
  has_separator name = false ->
  split (path +:+ "." +:+ name) = split path ++ [name].
Proof.
  intros Hname. induction path as [|c rest IH]; simpl.
  - change ("" +:+ name) with name. by rewrite (split_no_separator _ Hname).
  - destruct (Ascii.eqb c "."); [by rewrite IH|].
    rewrite IH. pose proof (split_nonempty rest) as Hne.
    by destruct (split rest).
Qed.

Lemma resolve_snoc h names name obj parent :
  resolve h (names ++ [name]) obj = Some parent ->
  exists before,
    resolve h names obj = Some before /\ own h before name = Some parent.
Proof.
  revert obj. induction names as [|n rest IH]; intros obj; simpl.
  - destruct (own h obj name) as [v|] eqn:Ho; [|done].
    destruct (truthy v); [|done]. intros [= ->]. by exists obj.
  - destruct (own h obj n) as [v|]; [|done]. destruct (truthy v); [|done]. apply IH.
Qed.


